(** * simple_eval: the tokenizer and the postfix evaluator of [main.cpp]

    A shallow embedding of the two classes of [main.cpp], [tokenizer] and
    [eval], followed by the properties of the lexer, of the structural
    check, of the infix-to-postfix rewrite and of the operand-stack
    evaluation.

    Conventions of the embedding:
    - [char] is [ascii], [std::string] is [string], [double] is the
      primitive binary64 [float], [int] is [Z] with the 32-bit wrap-around
      written out ([wrap_int]);
    - [vector<token>] is [list token] and [push_back] appends at the end;
    - [stack<token, token_list>] is a [list token] whose head is [top()];
    - [top()] and [pop()] of an empty stack are undefined in C++; the
      functions that can reach them return [Undefined] there. *)

From Stdlib Require Import List String Ascii Bool ZArith Lia.
From Stdlib Require Import Floats.PrimFloat Floats.SpecFloat Floats.FloatOps.
Import ListNotations.

Local Open Scope Z_scope.

(** ** Machine integers and characters *)

(** [int]: 32 bits, two's complement. *)
Definition wrap_int (z : Z) : Z := (z + 2 ^ 31) mod 2 ^ 32 - 2 ^ 31.

(** [++n] on an [int]. *)
Definition incr (n : Z) : Z := wrap_int (n + 1).

Definition code (c : ascii) : Z := Z.of_N (N_of_ascii c).

(** [isspace] of the C locale: space, [\t], [\n], [\v], [\f], [\r]. *)
Definition isspace (c : ascii) : bool :=
  ((9 <=? code c) && (code c <=? 13)) || (code c =? 32).

(** [isdigit]: ['0'] to ['9']. *)
Definition isdigit (c : ascii) : bool :=
  (48 <=? code c) && (code c <=? 57).

(** ** [atof]

    The text of a number token holds digits and decimal points only, so
    [atof] reads the longest prefix of the form digits, optionally a point
    and more digits, with at least one digit in it, and returns the decimal
    value rounded to the nearest binary64 (ties to even); without any digit
    nothing is converted and the result is zero. *)

Fixpoint take_digits (s : string) : list Z * string :=
  match s with
  | EmptyString => ([], EmptyString)
  | String c rest =>
      if isdigit c
      then let '(ds, tl) := take_digits rest in (code c - 48 :: ds, tl)
      else ([], s)
  end.

Definition decimal_value (ds : list Z) : Z :=
  fold_left (fun acc d => 10 * acc + d) ds 0.

(** The integer part and the fraction digits of the converted prefix. *)
Definition decimal_prefix (s : string) : list Z * list Z :=
  let '(ip, tl) := take_digits s in
  match tl with
  | String "."%char rest => (ip, fst (take_digits rest))
  | _ => (ip, [])
  end.

(** [m / 10^k] rounded to binary64. *)
Definition round_decimal (m : Z) (k : Z) : float :=
  let '(q, e, l) := SFdiv_core_binary prec emax m 0 (10 ^ k) 0 in
  SF2Prim (binary_round_aux prec emax false q e l).

Definition atof (s : string) : float :=
  let '(ip, fp) := decimal_prefix s in
  match ip ++ fp with
  | [] => PrimFloat.zero
  | ds => round_decimal (decimal_value ds) (Z.of_nat (List.length fp))
  end.

(** ** Tokens *)

Module token_type.
Inductive t : Set :=
| unknown
| number
| open_bracket
| close_bracket
| op_add
| op_sub
| op_mul
| op_div.

Definition eqb (a b : t) : bool :=
  match a, b with
  | unknown, unknown | number, number
  | open_bracket, open_bracket | close_bracket, close_bracket
  | op_add, op_add | op_sub, op_sub | op_mul, op_mul | op_div, op_div => true
  | _, _ => false
  end.

End token_type.

Record token : Set := mk_token {
  type : token_type.t;
  text : string;
  number : float
}.

(** [token{}] and the state after [clear()]. *)
Definition empty_token : token :=
  mk_token token_type.unknown EmptyString PrimFloat.zero.

Definition token_list := list token.

(** [tokens.push_back(t)]. *)
Definition push_back (l : token_list) (t : token) : token_list := l ++ [t].

Definition count_type (ty : token_type.t) (l : token_list) : nat :=
  List.length (filter (fun t => token_type.eqb (type t) ty) l).

(** ** class [tokenizer] *)

Module tokenizer.

Record t : Set := mk {
  src : string;
  tokens : token_list;
  error : bool
}.

(** [tokenizer::tokenizer(const string&)]. *)
Definition new (src_text : string) : t := mk src_text [] false.

Definition is_value (c : ascii) : bool :=
  isdigit c || Ascii.eqb c ".".

Definition is_operator (c : ascii) : bool :=
  Ascii.eqb c "+" || Ascii.eqb c "-" || Ascii.eqb c "*" || Ascii.eqb c "/"
  || Ascii.eqb c "(" || Ascii.eqb c ")".

(** The four counters of [verify_tokenlist] and the flag its [default]
    case raises. *)
Record counters : Set := mk_counters {
  numbers_count : Z;
  operations_count : Z;
  open_brackets_count : Z;
  close_brackets_count : Z;
  bad_type : bool
}.

(** One turn of the [switch] of [verify_tokenlist]. *)
Definition count_token (c : counters) (tk : token) : counters :=
  let '(mk_counters n o ob cb bad) := c in
  match type tk with
  | token_type.number => mk_counters (incr n) o ob cb bad
  | token_type.open_bracket => mk_counters n o (incr ob) cb bad
  | token_type.close_bracket => mk_counters n o ob (incr cb) bad
  | token_type.op_add | token_type.op_sub
  | token_type.op_mul | token_type.op_div => mk_counters n (incr o) ob cb bad
  | token_type.unknown => mk_counters n o ob cb true
  end.

Definition verify_tokenlist (tk : t) : t :=
  if error tk then tk
  else
    let c := fold_left count_token (tokens tk) (mk_counters 0 0 0 0 false) in
    let error := bad_type c in
    let error :=
      if negb (open_brackets_count c =? close_brackets_count c)
      then true else error in
    let error :=
      if negb (numbers_count c =? wrap_int (operations_count c + 1))
      then true else error in
    mk (src tk) (tokens tk) error.

(** The block [if (t.type != unknown) { ...; tokens.push_back(t); }],
    which stands both in the operator branch and after the loop. *)
Definition flush_pending (tk : token) (tokens : token_list) : token_list :=
  if negb (token_type.eqb (type tk) token_type.unknown)
  then
    let tk :=
      if token_type.eqb (type tk) token_type.number
      then mk_token (type tk) (text tk) (atof (text tk))
      else tk in
    push_back tokens tk
  else tokens.

(** The chain of [if (rune == ...) t.type = ...] on a cleared token. *)
Definition operator_type (rune : ascii) : token_type.t :=
  let ty := token_type.unknown in
  let ty := if Ascii.eqb rune "+" then token_type.op_add else ty in
  let ty := if Ascii.eqb rune "-" then token_type.op_sub else ty in
  let ty := if Ascii.eqb rune "*" then token_type.op_mul else ty in
  let ty := if Ascii.eqb rune "/" then token_type.op_div else ty in
  let ty := if Ascii.eqb rune "(" then token_type.open_bracket else ty in
  let ty := if Ascii.eqb rune ")" then token_type.close_bracket else ty in
  ty.

(** The state of the scanning loop of [parse]: the local token [t], the
    member [tokens] and the member [error]. *)
Record scan : Set := mk_scan {
  pending : token;
  scanned : token_list;
  failed : bool
}.

(** The [for (char rune : src)] loop; the last branch is
    [error = true; break]. *)
Fixpoint parse_loop (runes : list ascii) (s : scan) : scan :=
  match runes with
  | [] => s
  | rune :: rest =>
      let '(mk_scan tk tokens err) := s in
      if isspace rune then parse_loop rest s
      else if is_value rune then
        let tk :=
          mk_token token_type.number
                   (text tk ++ String rune EmptyString) (number tk) in
        parse_loop rest (mk_scan tk tokens err)
      else if is_operator rune then
        let tokens := flush_pending tk tokens in
        let op :=
          mk_token (operator_type rune) (String rune EmptyString)
                   PrimFloat.zero in
        parse_loop rest (mk_scan empty_token (push_back tokens op) err)
      else mk_scan tk tokens true
  end.

(** [parse] up to the call of [verify_tokenlist]. *)
Definition lex (tk : t) : t :=
  let s :=
    parse_loop (list_ascii_of_string (src tk))
               (mk_scan empty_token (tokens tk) (error tk)) in
  mk (src tk) (flush_pending (pending s) (scanned s)) (failed s).

Definition parse (tk : t) : t := verify_tokenlist (lex tk).

(** [error_state()] and [get_tokens()]. *)
Definition error_state (tk : t) : bool := error tk.
Definition get_tokens (tk : t) : token_list := tokens tk.

End tokenizer.

(** ** Undefined behaviour

    [stack::top()] and [stack::pop()] of an empty stack are undefined.  The
    evaluation records which of the two places of [eval::solve] reached
    one. *)

Inductive fault : Set :=
| operand_underflow   (* [nums.top()] / [nums.pop()] in the operator branch *)
| empty_result.       (* [nums.top()] after the loop *)

Inductive outcome (A : Type) : Type :=
| Defined (a : A)
| Undefined (f : fault).

Arguments Defined {A} a.
Arguments Undefined {A} f.

(** ** class [eval] *)

Module eval.

Record t : Set := mk {
  tokens : token_list;
  error : bool;
  result : float
}.

(** [eval::eval(const tokenizer&)] and [eval::eval(const token_list&)]. *)
Definition of_tokenizer (tk : tokenizer.t) : t :=
  mk (tokenizer.get_tokens tk) false PrimFloat.zero.

Definition new (tl : token_list) : t := mk tl false PrimFloat.zero.

Definition precedence (tk : token) : Z :=
  match type tk with
  | token_type.op_add | token_type.op_sub => 10
  | token_type.op_mul | token_type.op_div => 20
  | _ => -1
  end.

Definition is_number (tk : token) : bool :=
  token_type.eqb (type tk) token_type.number.

Definition is_operator (tk : token) : bool :=
  if token_type.eqb (type tk) token_type.op_add then true
  else if token_type.eqb (type tk) token_type.op_sub then true
  else if token_type.eqb (type tk) token_type.op_mul then true
  else if token_type.eqb (type tk) token_type.op_div then true
  else false.

Definition is_open_bracket (tk : token) : bool :=
  token_type.eqb (type tk) token_type.open_bracket.

Definition is_close_bracket (tk : token) : bool :=
  token_type.eqb (type tk) token_type.close_bracket.

Definition is_bracket (tk : token) : bool :=
  if is_open_bracket tk then true
  else if is_close_bracket tk then true
  else false.

Fixpoint check_infix_for_brackets (tl : token_list) : bool :=
  match tl with
  | [] => false
  | term :: rest =>
      if is_bracket term then true else check_infix_for_brackets rest
  end.

(** [while (not op_stack.empty()) { output.push_back(op_stack.top());
    op_stack.pop(); }]: the output and the stack it leaves. *)
Fixpoint drain (op_stack output : token_list) : token_list * token_list :=
  match op_stack with
  | [] => (output, [])
  | top :: rest => drain rest (push_back output top)
  end.

(** The loop of the close-bracket branch. *)
Fixpoint close_group (op_stack output : token_list)
  : token_list * token_list :=
  match op_stack with
  | [] => (output, [])
  | top :: rest =>
      if is_open_bracket top then (output, rest)
      else
        let output :=
          if negb (is_bracket top) then push_back output top else output in
        close_group rest output
  end.

(** The state of the loop of [to_postfix]. *)
Record rewrite : Set := mk_rewrite {
  output : token_list;
  op_stack : token_list;
  aborted : bool
}.

(** [for (token term : input)]; the two [mk_rewrite _ _ true] are
    [error = true; break]. *)
Fixpoint postfix_loop (input : token_list) (r : rewrite) : rewrite :=
  match input with
  | [] => r
  | term :: rest =>
      let '(mk_rewrite output op_stack err) := r in
      if is_number term then
        postfix_loop rest (mk_rewrite (push_back output term) op_stack err)
      else if is_operator term then
        match op_stack with
        | [] => postfix_loop rest (mk_rewrite output (term :: op_stack) err)
        | top :: _ =>
            if is_bracket top then
              postfix_loop rest (mk_rewrite output (term :: op_stack) err)
            else if precedence term >? precedence top then
              postfix_loop rest (mk_rewrite output (term :: op_stack) err)
            else
              let '(output, op_stack) := drain op_stack output in
              postfix_loop rest (mk_rewrite output (term :: op_stack) err)
        end
      else if is_bracket term then
        if is_open_bracket term then
          postfix_loop rest (mk_rewrite output (term :: op_stack) err)
        else if is_close_bracket term then
          let '(output, op_stack) := close_group op_stack output in
          postfix_loop rest (mk_rewrite output op_stack err)
        else mk_rewrite output op_stack true
      else mk_rewrite output op_stack true
  end.

Definition to_postfix (e : t) : t :=
  let input := tokens e in
  let r := postfix_loop input (mk_rewrite [] [] (error e)) in
  let '(output, _) := drain (op_stack r) (output r) in
  let error := aborted r in
  let error := if check_infix_for_brackets output then true else error in
  mk output error (result e).

(** [token tr; tr.type = token_type::number; tr.number = v]. *)
Definition number_token (v : float) : token :=
  mk_token token_type.number EmptyString v.

(** [for (token term : tokens)] of [solve], with the operand stack. *)
Fixpoint solve_loop (tl nums : token_list) (err : bool)
  : outcome (token_list * bool) :=
  match tl with
  | [] => Defined (nums, err)
  | term :: rest =>
      if is_number term then solve_loop rest (term :: nums) err
      else if is_operator term then
        match nums with
        | ty :: tx :: nums =>
            let y := number ty in
            let x := number tx in
            let nums :=
              match type term with
              | token_type.op_add => number_token (PrimFloat.add x y) :: nums
              | token_type.op_sub => number_token (PrimFloat.sub x y) :: nums
              | token_type.op_mul => number_token (PrimFloat.mul x y) :: nums
              | token_type.op_div => number_token (PrimFloat.div x y) :: nums
              | _ => nums
              end in
            solve_loop rest nums err
        | _ => Undefined operand_underflow
        end
      else Defined (nums, true)
  end.

Definition solve (e : t) : outcome t :=
  let e := to_postfix e in
  if error e then Defined e
  else
    match solve_loop (tokens e) [] (error e) with
    | Undefined f => Undefined f
    | Defined ([], _) => Undefined empty_result
    | Defined (top :: _, err) => Defined (mk (tokens e) err (number top))
    end.

(** [error_state()], [get_result()] and [get_tokens()]. *)
Definition error_state (e : t) : bool := error e.
Definition get_result (e : t) : float := result e.
Definition get_tokens (e : t) : token_list := tokens e.

End eval.

(** ** Reference evaluation

    The textbook shunting-yard rule the rewrite of [eval::to_postfix] is
    compared with: an incoming operator pops only the operators on top of
    the stack whose precedence is higher or equal, and stops at the first
    bracket or lower operator.  Everything else is as in [eval]. *)

Module reference.

Fixpoint pop_higher (term : token) (op_stack output : token_list)
  : token_list * token_list :=
  match op_stack with
  | [] => (output, [])
  | top :: rest =>
      if eval.is_operator top
         && (eval.precedence term <=? eval.precedence top)
      then pop_higher term rest (push_back output top)
      else (output, op_stack)
  end.

Fixpoint postfix_loop (input : token_list) (r : eval.rewrite)
  : eval.rewrite :=
  match input with
  | [] => r
  | term :: rest =>
      let '(eval.mk_rewrite output op_stack err) := r in
      if eval.is_number term then
        postfix_loop rest
          (eval.mk_rewrite (push_back output term) op_stack err)
      else if eval.is_operator term then
        let '(output, op_stack) := pop_higher term op_stack output in
        postfix_loop rest (eval.mk_rewrite output (term :: op_stack) err)
      else if eval.is_open_bracket term then
        postfix_loop rest (eval.mk_rewrite output (term :: op_stack) err)
      else if eval.is_close_bracket term then
        let '(output, op_stack) := eval.close_group op_stack output in
        postfix_loop rest (eval.mk_rewrite output op_stack err)
      else eval.mk_rewrite output op_stack true
  end.

Definition to_postfix (e : eval.t) : eval.t :=
  let r := postfix_loop (eval.tokens e)
             (eval.mk_rewrite [] [] (eval.error e)) in
  let '(output, _) := eval.drain (eval.op_stack r) (eval.output r) in
  let error := eval.aborted r in
  let error := if eval.check_infix_for_brackets output then true else error in
  eval.mk output error (eval.result e).

(** The value of an infix token sequence under standard precedence, when
    the reference rewrite and the evaluation of its output succeed. *)
Definition value (tl : token_list) : option float :=
  let e := to_postfix (eval.new tl) in
  if eval.error e then None
  else
    match eval.solve_loop (eval.tokens e) [] false with
    | Defined ([top], false) => Some (number top)
    | _ => None
    end.

End reference.

(** ** Vocabulary of the statements *)

(** The characters the scanning loop of [parse] accepts. *)
Definition accepted (c : ascii) : bool :=
  isspace c || tokenizer.is_value c || tokenizer.is_operator c.

(** A string without its whitespace characters. *)
Definition strip_spaces (s : string) : string :=
  string_of_list_ascii
    (filter (fun c => negb (isspace c)) (list_ascii_of_string s)).

(** A token whose text holds no whitespace character. *)
Definition spaceless (tk : token) : bool :=
  forallb (fun c => negb (isspace c)) (list_ascii_of_string (text tk)).

(** A token of one of the seven valid kinds. *)
Definition known (tk : token) : bool :=
  negb (token_type.eqb (type tk) token_type.unknown).

(** The operator tokens of a sequence, counted. *)
Definition count_operators (l : token_list) : nat :=
  (count_type token_type.op_add l + count_type token_type.op_sub l
   + count_type token_type.op_mul l + count_type token_type.op_div l)%nat.

(** The scan of a fresh tokenizer over a whole string. *)
Definition scan_of (s : string) : tokenizer.scan :=
  tokenizer.parse_loop (list_ascii_of_string s)
    (tokenizer.mk_scan empty_token [] false).

(** Tokens used in the examples. *)
Definition Num (s : string) (v : float) : token :=
  mk_token token_type.number s v.
Definition Sym (ty : token_type.t) (s : string) : token :=
  mk_token ty s PrimFloat.zero.

(** ** [string_strip] and the body of the loop of [main] *)

(** [str[str.size() - 1]] and [str.erase(str.end() - 1)]. *)
Fixpoint last_char (s : string) : option ascii :=
  match s with
  | EmptyString => None
  | String c EmptyString => Some c
  | String _ rest => last_char rest
  end.

Fixpoint remove_last (s : string) : string :=
  match s with
  | EmptyString => EmptyString
  | String _ EmptyString => EmptyString
  | String c rest => String c (remove_last rest)
  end.

(** [while (str.size() > 0 && isspace(str[0])) str.erase(str.begin());] *)
Fixpoint erase_front (s : string) : string :=
  match s with
  | EmptyString => s
  | String c rest => if isspace c then erase_front rest else s
  end.

(** [while (str.size() > 0 && isspace(str[str.size() - 1]))
    str.erase(str.end() - 1);] with one unit of fuel for each turn; the
    length of the string is enough, a turn removes a character. *)
Fixpoint erase_back_loop (fuel : nat) (s : string) : string :=
  match fuel with
  | O => s
  | S fuel =>
      match last_char s with
      | Some c => if isspace c then erase_back_loop fuel (remove_last s) else s
      | None => s
      end
  end.

Definition erase_back (s : string) : string :=
  erase_back_loop (String.length s) s.

Definition string_strip (str : string) : string :=
  erase_back (erase_front str).

(** What one turn of the loop of [main] prints for the line it read. *)
Inductive reply : Set :=
| parsing_error            (* [-- parsing error --] *)
| evaluation_error         (* [-- error --] *)
| answer (v : float).      (* [(result): v] *)

(** One turn of the [do ... while (not line.empty())] loop of [main] on
    the line read: [None] when the stripped line is empty and the loop
    ends, otherwise what is printed, or the undefined behaviour [solve]
    ran into. *)
Definition main_step (line : string) : option (outcome reply) :=
  let line := string_strip line in
  if negb (String.eqb line EmptyString) then
    let tk := tokenizer.parse (tokenizer.new line) in
    if tokenizer.error_state tk then Some (Defined parsing_error)
    else
      match eval.solve (eval.of_tokenizer tk) with
      | Undefined f => Some (Undefined f)
      | Defined ev =>
          if eval.error_state ev then Some (Defined evaluation_error)
          else Some (Defined (answer (eval.get_result ev)))
      end
  else None.

(** ** Vocabulary of the further statements *)

(** A string of whitespace characters only. *)
Definition all_space (s : string) : bool :=
  forallb isspace (list_ascii_of_string s).

(** The first character of a string. *)
Definition first_char (s : string) : option ascii :=
  match s with
  | EmptyString => None
  | String c _ => Some c
  end.

(** A character that is absent or not whitespace. *)
Definition not_space (c : option ascii) : bool :=
  match c with
  | None => true
  | Some c => negb (isspace c)
  end.

(** The texts of a token sequence, one after the other. *)
Definition source_text (l : token_list) : string :=
  fold_right (fun tk s => (text tk ++ s)%string) EmptyString l.

(** A token as the lexer builds it: a Number token holds a non-empty text
    of digits and points and the value [atof] gives it; a token of another
    kind holds the one character of its kind and the number zero. *)
Definition well_formed (tk : token) : Prop :=
  match type tk with
  | token_type.unknown => False
  | token_type.number =>
      text tk <> EmptyString
      /\ forallb tokenizer.is_value (list_ascii_of_string (text tk)) = true
      /\ number tk = atof (text tk)
  | ty =>
      exists c, text tk = String c EmptyString
                /\ tokenizer.is_operator c = true
                /\ tokenizer.operator_type c = ty
                /\ number tk = PrimFloat.zero
  end.

(** The token the loop is building: none yet, or a Number with a
    non-empty text of digits and points. *)
Definition pending_ok (tk : token) : Prop :=
  (type tk = token_type.unknown /\ text tk = EmptyString)
  \/ (type tk = token_type.number
      /\ text tk <> EmptyString
      /\ forallb tokenizer.is_value (list_ascii_of_string (text tk)) = true).

(** No two Number tokens side by side. *)
Fixpoint no_adjacent_numbers (l : token_list) : bool :=
  match l with
  | a :: rest =>
      match rest with
      | b :: _ => negb (eval.is_number a && eval.is_number b)
      | [] => true
      end && no_adjacent_numbers rest
  | [] => true
  end.

(** A Number or an operator token. *)
Definition operand_or_operator (tk : token) : bool :=
  eval.is_number tk || eval.is_operator tk.

(** An operator or an open bracket: what the rewrite pushes. *)
Definition operator_or_open (tk : token) : bool :=
  eval.is_operator tk || eval.is_open_bracket tk.

(** A Number, an operator or an open bracket: what the rewrite emits. *)
Definition emitted_kind (tk : token) : bool :=
  eval.is_number tk || eval.is_operator tk || eval.is_open_bracket tk.

(** Operator, Number, operator, Number, ... *)
Fixpoint operator_number_pairs (l : token_list) : bool :=
  match l with
  | [] => true
  | o :: rest =>
      match rest with
      | n :: rest =>
          eval.is_operator o && eval.is_number n && operator_number_pairs rest
      | [] => false
      end
  end.

(** A bracket-free infix sequence: Number, operator, Number, ..., Number. *)
Definition alternating (l : token_list) : bool :=
  match l with
  | n :: rest => eval.is_number n && operator_number_pairs rest
  | [] => false
  end.

(** The state the rewrite is in after a Number of an alternating
    sequence: the stack holds operators, and the output evaluates, without
    fault, to one value more than the stack has operators. *)
Definition balanced (r : eval.rewrite) : Prop :=
  eval.aborted r = false
  /\ forallb eval.is_operator (eval.op_stack r) = true
  /\ forallb operand_or_operator (eval.output r) = true
  /\ exists nums,
       eval.solve_loop (eval.output r) [] false = Defined (nums, false)
       /\ List.length nums = S (List.length (eval.op_stack r)).

(** Expression trees, their postfix form and their value in binary64. *)
Inductive binop : Set := Add | Sub | Mul | Div.

Inductive expr : Set :=
| Leaf (tk : token)
| Node (op : binop) (tk : token) (l r : expr).

Definition binop_type (op : binop) : token_type.t :=
  match op with
  | Add => token_type.op_add
  | Sub => token_type.op_sub
  | Mul => token_type.op_mul
  | Div => token_type.op_div
  end.

(** A tree whose leaves are Number tokens and whose nodes carry a token of
    the kind of their operator. *)
Fixpoint well_typed (e : expr) : bool :=
  match e with
  | Leaf tk => eval.is_number tk
  | Node op tk l r =>
      token_type.eqb (type tk) (binop_type op) && well_typed l && well_typed r
  end.

Fixpoint postfix_of (e : expr) : token_list :=
  match e with
  | Leaf tk => [tk]
  | Node _ tk l r => postfix_of l ++ postfix_of r ++ [tk]
  end.

Fixpoint value_of (e : expr) : float :=
  match e with
  | Leaf tk => number tk
  | Node Add _ l r => PrimFloat.add (value_of l) (value_of r)
  | Node Sub _ l r => PrimFloat.sub (value_of l) (value_of r)
  | Node Mul _ l r => PrimFloat.mul (value_of l) (value_of r)
  | Node Div _ l r => PrimFloat.div (value_of l) (value_of r)
  end.

(** * Properties *)

(** ** [atof] on the texts the lexer can build *)

(** Digits and points only: the conversion stops at a second point, a
    text without digits gives zero, and the value is rounded to nearest. *)
Lemma atof_examples :
  atof "12" = 12%float
  /\ atof "5." = 5%float
  /\ atof ".5" = 0x1p-1%float
  /\ atof "." = 0%float
  /\ atof "1.2.3" = 0x1.3333333333333p+0%float
  /\ atof "9007199254740993" = 9007199254740992%float.
Proof. vm_compute. repeat split. Qed.

(** ** Token kinds *)

Lemma token_type_eqb_eq (a b : token_type.t) :
  token_type.eqb a b = true <-> a = b.
Proof. destruct a, b; simpl; split; congruence. Qed.

Lemma token_type_eqb_neq (a b : token_type.t) :
  token_type.eqb a b = false <-> a <> b.
Proof. destruct a, b; simpl; split; congruence. Qed.

(** Splits a conjunction into its parts, and nothing else. *)
Ltac conjuncts := repeat match goal with |- _ /\ _ => split end.

(** The predicates of [eval] read off the kind of the token. *)
Ltac by_kind tk :=
  unfold eval.is_bracket, eval.is_open_bracket, eval.is_close_bracket,
    eval.is_operator, eval.is_number, eval.precedence in *;
  destruct (type tk); simpl in *; try congruence; try discriminate; auto.

Lemma operator_not_number (tk : token) :
  eval.is_operator tk = true -> eval.is_number tk = false.
Proof. by_kind tk. Qed.

Lemma operator_not_bracket (tk : token) :
  eval.is_operator tk = true -> eval.is_bracket tk = false.
Proof. by_kind tk. Qed.

Lemma operator_precedence (tk : token) :
  eval.is_operator tk = true ->
  eval.precedence tk
  = match type tk with
    | token_type.op_mul | token_type.op_div => 20
    | _ => 10
    end.
Proof. by_kind tk. Qed.

(** ** The rewrite to postfix *)

Section Rewrite.

Import eval.

(** The flushing loop emits the whole stack, top first, and empties it. *)
Lemma drain_spec (op_stack output : token_list) :
  drain op_stack output = (output ++ op_stack, []).
Proof.
  revert output.
  induction op_stack as [|top rest IH]; intros output; simpl.
  - now rewrite app_nil_r.
  - rewrite IH. unfold push_back. now rewrite <- app_assoc.
Qed.

Lemma check_infix_for_brackets_existsb (tl : token_list) :
  check_infix_for_brackets tl = existsb is_bracket tl.
Proof.
  induction tl as [|term rest IH]; simpl; [reflexivity|].
  rewrite IH. now destruct (is_bracket term).
Qed.

Lemma check_infix_for_brackets_false (tl : token_list) :
  check_infix_for_brackets tl = false <->
  forall tk, In tk tl -> is_bracket tk = false.
Proof.
  rewrite check_infix_for_brackets_existsb. split.
  - intros H tk Hin.
    destruct (is_bracket tk) eqn:E; [|reflexivity].
    assert (existsb is_bracket tl = true) as H'
        by (apply existsb_exists; eauto).
    congruence.
  - intros H. destruct (existsb is_bracket tl) eqn:E; [|reflexivity].
    apply existsb_exists in E. destruct E as (tk & Hin & Hb).
    rewrite (H tk Hin) in Hb. discriminate.
Qed.

(** What [to_postfix] leaves in the object. *)
Lemma to_postfix_fields (e : t) :
  let r := postfix_loop (tokens e) (mk_rewrite [] [] (error e)) in
  tokens (to_postfix e) = output r ++ op_stack r
  /\ error (to_postfix e)
     = (check_infix_for_brackets (output r ++ op_stack r) || aborted r)%bool.
Proof.
  unfold to_postfix. simpl. rewrite drain_spec. simpl.
  now destruct (check_infix_for_brackets _).
Qed.

End Rewrite.

(** C1: in the rewrite, on an operator token met with a non-empty stack
    whose top is not a bracket: when the precedence of the operator (20
    for Mul and Div, 10 for Add and Sub) is strictly greater than that of
    the top of the stack the operator is pushed; otherwise all the elements
    of the stack, whatever their kind, are popped and emitted in pop order
    and the operator is pushed on the emptied stack. *)
Theorem postfix_operator_on_operator
  (term top : token) (below input output : token_list) (err : bool) :
  eval.is_operator term = true ->
  eval.is_bracket top = false ->
  eval.precedence term
  = match type term with
    | token_type.op_mul | token_type.op_div => 20
    | _ => 10
    end
  /\ eval.postfix_loop (term :: input)
       (eval.mk_rewrite output (top :: below) err)
     = if eval.precedence term >? eval.precedence top
       then eval.postfix_loop input
              (eval.mk_rewrite output (term :: top :: below) err)
       else eval.postfix_loop input
              (eval.mk_rewrite (output ++ top :: below) [term] err).
Proof.
  intros Hop Htop. split; [now apply operator_precedence|].
  simpl. rewrite (operator_not_number _ Hop), Hop, Htop.
  destruct (eval.precedence term >? eval.precedence top); [reflexivity|].
  change (eval.drain below (push_back output top))
    with (eval.drain (top :: below) output).
  now rewrite drain_spec.
Qed.

(** A Sub met while a Mul is on top of an Add: both are emitted, Mul
    first. *)
Lemma postfix_operator_on_operator_witness :
  eval.postfix_loop [Sym token_type.op_sub "-"]
    (eval.mk_rewrite [Num "1" 1; Num "2" 2; Num "3" 3]
       [Sym token_type.op_mul "*"; Sym token_type.op_add "+"] false)
  = eval.mk_rewrite
      [Num "1" 1; Num "2" 2; Num "3" 3;
       Sym token_type.op_mul "*"; Sym token_type.op_add "+"]
      [Sym token_type.op_sub "-"] false.
Proof.
  exact (proj2 (postfix_operator_on_operator
                  (Sym token_type.op_sub "-") (Sym token_type.op_mul "*")
                  [Sym token_type.op_add "+"] []
                  [Num "1" 1; Num "2" 2; Num "3" 3] false
                  eq_refl eq_refl)).
Defined.

(** C6: after the rewrite, the error flag is set when a bracket token is
    in the rewritten sequence; so a run of [solve] that finishes with the
    flag unset has evaluated the rewritten sequence, and that sequence has
    no bracket token. *)
Theorem solve_postfix_without_brackets (e : eval.t) :
  (forall tk, In tk (eval.tokens (eval.to_postfix e)) ->
              eval.is_bracket tk = true ->
              eval.error (eval.to_postfix e) = true)
  /\ (forall e', eval.solve e = Defined e' ->
                 eval.error e' = false ->
                 eval.tokens e' = eval.tokens (eval.to_postfix e)
                 /\ eval.error (eval.to_postfix e) = false
                 /\ forall tk, In tk (eval.tokens e') ->
                               eval.is_bracket tk = false).
Proof.
  pose proof (to_postfix_fields e) as H. cbv zeta in H.
  destruct H as [Htok Herr].
  split.
  - intros tk Hin Hb. rewrite Herr.
    destruct (eval.check_infix_for_brackets _) eqn:E; [reflexivity|].
    rewrite Htok in Hin.
    rewrite (proj1 (check_infix_for_brackets_false _) E tk Hin) in Hb.
    discriminate.
  - intros e' Hsolve Hok. unfold eval.solve in Hsolve.
    destruct (eval.error (eval.to_postfix e)) eqn:Eerr.
    + injection Hsolve as <-. congruence.
    + destruct (eval.solve_loop _ _ _) as [[[|top nums] err]|f];
        try discriminate.
      injection Hsolve as <-. simpl in *.
      conjuncts; try reflexivity.
      symmetry in Herr. apply orb_false_elim in Herr.
      rewrite Htok. now apply check_infix_for_brackets_false.
Qed.

(** An unmatched open bracket survives the rewrite and raises the flag;
    the run on the tokens of (2+3)*4 ends with the flag unset. *)
Lemma solve_postfix_without_brackets_witness :
  eval.error
    (eval.to_postfix
       (eval.new [Sym token_type.open_bracket "("; Num "2" 2])) = true
  /\ forall tk,
       In tk [Num "2" 2; Num "3" 3; Sym token_type.op_add "+"; Num "4" 4;
              Sym token_type.op_mul "*"] ->
       eval.is_bracket tk = false.
Proof.
  split.
  - apply (proj1 (solve_postfix_without_brackets
                    (eval.new [Sym token_type.open_bracket "("; Num "2" 2]))
             (Sym token_type.open_bracket "("));
      [simpl; auto | reflexivity].
  - apply (proj2 (solve_postfix_without_brackets
                    (eval.new
                       [Sym token_type.open_bracket "("; Num "2" 2;
                        Sym token_type.op_add "+"; Num "3" 3;
                        Sym token_type.close_bracket ")";
                        Sym token_type.op_mul "*"; Num "4" 4]))
             (eval.mk [Num "2" 2; Num "3" 3; Sym token_type.op_add "+";
                       Num "4" 4; Sym token_type.op_mul "*"] false 20));
      reflexivity.
Defined.

(** ** The operand stack *)

(** C7: on an operator token the value popped first is the right operand
    and the value popped second the left one, so that Sub computes left
    minus right and Div left divided by right; the result is pushed as a
    Number token.  The postfix sequence 10 4 Sub evaluates to 6. *)
Theorem solve_operand_order :
  (forall (term ty tx : token) (rest nums : token_list) (err : bool),
     eval.is_operator term = true ->
     let right := number ty in
     let left := number tx in
     let v :=
       match type term with
       | token_type.op_add => PrimFloat.add left right
       | token_type.op_sub => PrimFloat.sub left right
       | token_type.op_mul => PrimFloat.mul left right
       | _ => PrimFloat.div left right
       end in
     eval.solve_loop (term :: rest) (ty :: tx :: nums) err
     = eval.solve_loop rest (eval.number_token v :: nums) err
     /\ type (eval.number_token v) = token_type.number
     /\ number (eval.number_token v) = v)
  /\ eval.solve
       (eval.new [Num "10" 10; Num "4" 4; Sym token_type.op_sub "-"])
     = Defined
         (eval.mk [Num "10" 10; Num "4" 4; Sym token_type.op_sub "-"]
            false 6)
  /\ PrimFloat.sub 10 4 = 6%float
  /\ PrimFloat.eqb 6 (-6) = false.
Proof.
  split; [|conjuncts; vm_compute; reflexivity].
  intros term ty tx rest nums err Hop. cbv zeta.
  conjuncts; try reflexivity.
  simpl. rewrite (operator_not_number _ Hop), Hop.
  revert Hop. unfold eval.is_operator.
  destruct (type term); simpl; intros; congruence.
Qed.

(** Div on the stack 2 :: 8 :: [] leaves 8 / 2 = 4. *)
Lemma solve_operand_order_witness :
  eval.solve_loop [Sym token_type.op_div "/"] [Num "2" 2; Num "8" 8] false
  = Defined ([eval.number_token 4], false).
Proof.
  exact (proj1 (proj1 solve_operand_order
                  (Sym token_type.op_div "/") (Num "2" 2) (Num "8" 8)
                  [] [] false eq_refl)).
Defined.

(** ** The scanning loop of [parse] *)

Section Scan.

Import tokenizer.

Lemma list_ascii_of_string_app (a b : string) :
  list_ascii_of_string (a ++ b)
  = list_ascii_of_string a ++ list_ascii_of_string b.
Proof. induction a as [|c a IH]; simpl; [reflexivity | now rewrite IH]. Qed.

Lemma accepted_cases (c : ascii) :
  accepted c = false ->
  isspace c = false /\ is_value c = false /\ is_operator c = false.
Proof.
  unfold accepted. intros H.
  apply orb_false_elim in H. destruct H as [H Ho].
  apply orb_false_elim in H. tauto.
Qed.

(** One turn of the loop, by the class of the character. *)
Lemma parse_loop_space (rune : ascii) (rest : list ascii) (s : scan) :
  isspace rune = true ->
  parse_loop (rune :: rest) s = parse_loop rest s.
Proof. intros H. destruct s. simpl. now rewrite H. Qed.

Lemma parse_loop_value (rune : ascii) (rest : list ascii) (s : scan) :
  isspace rune = false -> is_value rune = true ->
  parse_loop (rune :: rest) s
  = parse_loop rest
      (mk_scan (mk_token token_type.number
                  (text (pending s) ++ String rune EmptyString)
                  (number (pending s)))
         (scanned s) (failed s)).
Proof. intros H1 H2. destruct s. simpl. now rewrite H1, H2. Qed.

Lemma parse_loop_operator (rune : ascii) (rest : list ascii) (s : scan) :
  isspace rune = false -> is_value rune = false -> is_operator rune = true ->
  parse_loop (rune :: rest) s
  = parse_loop rest
      (mk_scan empty_token
         (push_back (flush_pending (pending s) (scanned s))
            (mk_token (operator_type rune) (String rune EmptyString)
               PrimFloat.zero))
         (failed s)).
Proof. intros H1 H2 H3. destruct s. simpl. now rewrite H1, H2, H3. Qed.

Lemma parse_loop_rejected (rune : ascii) (rest : list ascii) (s : scan) :
  accepted rune = false ->
  parse_loop (rune :: rest) s = mk_scan (pending s) (scanned s) true.
Proof.
  intros H. apply accepted_cases in H. destruct H as (H1 & H2 & H3).
  destruct s. simpl. now rewrite H1, H2, H3.
Qed.

(** The four cases, for proofs by induction on the characters. *)
Ltac scan_cases rune :=
  let Hs := fresh "Hspace" in
  let Hv := fresh "Hvalue" in
  let Ho := fresh "Hoper" in
  destruct (isspace rune) eqn:Hs;
  [ rewrite !(parse_loop_space _ _ _ Hs)
  | destruct (is_value rune) eqn:Hv;
    [ rewrite !(parse_loop_value _ _ _ Hs Hv)
    | destruct (is_operator rune) eqn:Ho;
      [ rewrite !(parse_loop_operator _ _ _ Hs Hv Ho)
      | rewrite !(parse_loop_rejected rune)
          by (unfold accepted; now rewrite Hs, Hv, Ho) ] ] ].

(** Over accepted characters the loop does not stop, so it can be cut
    anywhere. *)
Lemma parse_loop_app (l1 l2 : list ascii) (s : scan) :
  Forall (fun c => accepted c = true) l1 ->
  parse_loop (l1 ++ l2) s = parse_loop l2 (parse_loop l1 s).
Proof.
  intros Hall. revert s.
  induction Hall as [|rune l1 Hacc Hall IH]; intros s; [reflexivity|].
  rewrite <- app_comm_cons.
  scan_cases rune; try apply IH.
  unfold accepted in Hacc. rewrite Hspace, Hvalue, Hoper in Hacc.
  discriminate.
Qed.

Lemma parse_loop_failed (l : list ascii) (s : scan) :
  failed (parse_loop l s) = (failed s || negb (forallb accepted l))%bool.
Proof.
  revert s. induction l as [|rune l IH]; intros s.
  - simpl. now rewrite orb_false_r.
  - simpl forallb. unfold accepted at 1.
    scan_cases rune; rewrite ?IH; simpl; try reflexivity.
    now rewrite orb_true_r.
Qed.

(** A fresh tokenizer lexes without error exactly the strings of accepted
    characters. *)
Lemma lex_error (src : string) :
  error (lex (new src)) = negb (forallb accepted (list_ascii_of_string src)).
Proof. unfold lex. simpl. now rewrite parse_loop_failed. Qed.

(** Whitespace leaves no trace in the scan. *)
Lemma parse_loop_skips_spaces (l : list ascii) (s : scan) :
  parse_loop l s = parse_loop (filter (fun c => negb (isspace c)) l) s.
Proof.
  revert s. induction l as [|rune l IH]; intros s; [reflexivity|].
  cbn [filter].
  destruct (isspace rune) eqn:Hspace; cbn [negb].
  - rewrite (parse_loop_space _ _ _ Hspace). apply IH.
  - destruct s as [tk toks err]. simpl. rewrite Hspace.
    destruct (is_value rune); [apply IH|].
    destruct (is_operator rune); [apply IH | reflexivity].
Qed.

(** *** Rejected characters and whitespace *)

Lemma verify_tokenlist_tokens (tk : t) :
  tokens (verify_tokenlist tk) = tokens tk.
Proof. unfold verify_tokenlist. now destruct (error tk). Qed.

Lemma verify_tokenlist_keeps_error (tk : t) :
  error tk = true -> error (verify_tokenlist tk) = true.
Proof. unfold verify_tokenlist. intros H. now rewrite H. Qed.

Lemma parse_tokens (src : string) :
  tokens (parse (new src))
  = flush_pending (pending (scan_of src)) (scanned (scan_of src)).
Proof. unfold parse. now rewrite verify_tokenlist_tokens. Qed.

(** [parse] looks at its source only through the scan. *)
Lemma parse_ext (a b : string) :
  scan_of a = scan_of b ->
  tokens (parse (new a)) = tokens (parse (new b))
  /\ error (parse (new a)) = error (parse (new b)).
Proof.
  intros H. unfold parse, verify_tokenlist, lex, scan_of in *. simpl in *.
  rewrite H. now destruct (failed _).
Qed.

(** A string with a rejected character splits at the first one. *)
Lemma first_rejected (src : string) :
  (exists c, In c (list_ascii_of_string src) /\ accepted c = false) ->
  exists pre c post,
    src = (pre ++ String c post)%string
    /\ Forall (fun x => accepted x = true) (list_ascii_of_string pre)
    /\ accepted c = false.
Proof.
  induction src as [|a src IH]; intros (c & Hin & Hc); [destruct Hin|].
  destruct (accepted a) eqn:Ha.
  - destruct Hin as [-> | Hin]; [congruence|].
    destruct IH as (pre & c' & post & -> & Hpre & Hc'); [eauto|].
    exists (String a pre), c', post. simpl. auto.
  - exists EmptyString, a, src. simpl. auto.
Qed.

Lemma scan_of_rejected (pre post : string) (c : ascii) :
  Forall (fun x => accepted x = true) (list_ascii_of_string pre) ->
  accepted c = false ->
  scan_of (pre ++ String c post)
  = mk_scan (pending (scan_of pre)) (scanned (scan_of pre)) true.
Proof.
  intros Hpre Hc. unfold scan_of.
  rewrite list_ascii_of_string_app, (parse_loop_app _ _ _ Hpre).
  simpl list_ascii_of_string. now rewrite parse_loop_rejected.
Qed.

(** No whitespace enters the text of a token. *)
Lemma flush_pending_spaceless (tk : token) (l : token_list) :
  spaceless tk = true -> forallb spaceless l = true ->
  forallb spaceless (flush_pending tk l) = true.
Proof.
  intros Htk Hl. unfold flush_pending, push_back.
  destruct (negb _); [|assumption].
  rewrite forallb_app, Hl. simpl.
  destruct (token_type.eqb _ _); unfold spaceless in *; simpl;
    now rewrite Htk.
Qed.

Lemma parse_loop_spaceless (l : list ascii) (s : scan) :
  spaceless (pending s) = true -> forallb spaceless (scanned s) = true ->
  spaceless (pending (parse_loop l s)) = true
  /\ forallb spaceless (scanned (parse_loop l s)) = true.
Proof.
  revert s. induction l as [|rune l IH]; intros s Hp Hs; [auto|].
  scan_cases rune.
  - now apply IH.
  - apply IH; [|assumption]. unfold spaceless in *. simpl.
    rewrite list_ascii_of_string_app, forallb_app, Hp. simpl.
    now rewrite Hspace.
  - apply IH; [reflexivity|]. simpl. unfold push_back.
    rewrite forallb_app, (flush_pending_spaceless _ _ Hp Hs).
    unfold spaceless. simpl. now rewrite Hspace.
  - auto.
Qed.

(** *** The structural check *)

Lemma wrap_int_small (z : Z) :
  - 2 ^ 31 <= z < 2 ^ 31 -> wrap_int z = z.
Proof.
  intros H. unfold wrap_int.
  rewrite Z.mod_small; lia.
Qed.

Lemma incr_of_nat (n : nat) :
  Z.of_nat (S n) < 2 ^ 31 -> incr (Z.of_nat n) = Z.of_nat (S n).
Proof. intros H. unfold incr. rewrite wrap_int_small; lia. Qed.

Lemma count_type_cons (ty : token_type.t) (tk : token) (l : token_list) :
  count_type ty (tk :: l)
  = ((if token_type.eqb (type tk) ty then 1 else 0) + count_type ty l)%nat.
Proof.
  unfold count_type. simpl. now destruct (token_type.eqb (type tk) ty).
Qed.

(** As long as the counters stay below [2^31], the loop of
    [verify_tokenlist] counts the tokens by kind and flags the unknown
    ones. *)
Lemma fold_count_token (l : token_list) :
  forall (n o ob cb : nat) (bad : bool),
    Z.of_nat (n + o + ob + cb + List.length l) < 2 ^ 31 ->
    fold_left count_token l
      (mk_counters (Z.of_nat n) (Z.of_nat o) (Z.of_nat ob) (Z.of_nat cb) bad)
    = mk_counters
        (Z.of_nat (n + count_type token_type.number l))
        (Z.of_nat (o + count_operators l))
        (Z.of_nat (ob + count_type token_type.open_bracket l))
        (Z.of_nat (cb + count_type token_type.close_bracket l))
        (bad || negb (forallb known l)).
Proof.
  induction l as [|tk l IH]; intros n o ob cb bad Hlen.
  - simpl. unfold count_operators, count_type. simpl.
    now rewrite !Nat.add_0_r, orb_false_r.
  - cbn [fold_left forallb List.length] in *.
    rewrite !count_type_cons.
    assert (count_operators (tk :: l)
            = ((if eval.is_operator tk then 1 else 0) + count_operators l)%nat)
      as Hops.
    { unfold count_operators. rewrite !count_type_cons.
      unfold eval.is_operator. destruct (type tk); simpl; lia. }
    rewrite Hops. clear Hops.
    unfold count_token at 2. unfold known at 1. unfold eval.is_operator.
    destruct (type tk); cbn [token_type.eqb negb andb];
      rewrite ?incr_of_nat by lia.
    + rewrite IH by lia. rewrite orb_true_r. reflexivity.
    + rewrite (IH (S n)) by lia. f_equal; f_equal; lia.
    + rewrite (IH n o (S ob)) by lia. f_equal; f_equal; lia.
    + rewrite (IH n o ob (S cb)) by lia. f_equal; f_equal; lia.
    + rewrite (IH n (S o)) by lia. f_equal; f_equal; lia.
    + rewrite (IH n (S o)) by lia. f_equal; f_equal; lia.
    + rewrite (IH n (S o)) by lia. f_equal; f_equal; lia.
    + rewrite (IH n (S o)) by lia. f_equal; f_equal; lia.
Qed.

Lemma count_operators_le (l : token_list) :
  (count_type token_type.number l + count_operators l <= List.length l)%nat.
Proof.
  induction l as [|tk l IH]; [unfold count_operators, count_type; simpl; lia|].
  unfold count_operators in *. rewrite !count_type_cons. simpl List.length.
  destruct (type tk); simpl; lia.
Qed.

(** The operator branch gives its token a valid kind. *)
Lemma operator_type_known (rune : ascii) :
  is_operator rune = true -> operator_type rune <> token_type.unknown.
Proof.
  unfold is_operator, operator_type.
  destruct (Ascii.eqb rune "+"), (Ascii.eqb rune "-"), (Ascii.eqb rune "*"),
    (Ascii.eqb rune "/"), (Ascii.eqb rune "("), (Ascii.eqb rune ")");
    simpl; congruence.
Qed.

Lemma flush_pending_known (tk : token) (l : token_list) :
  forallb known l = true -> forallb known (flush_pending tk l) = true.
Proof.
  intros Hl. unfold flush_pending, push_back.
  destruct (negb _) eqn:E; [|assumption].
  rewrite forallb_app, Hl. simpl.
  destruct (token_type.eqb (type tk) token_type.number); unfold known; simpl;
    now rewrite E.
Qed.

Lemma push_back_length (l : token_list) (tk : token) :
  List.length (push_back l tk) = S (List.length l).
Proof. unfold push_back. rewrite length_app. simpl. lia. Qed.

Lemma flush_pending_length (tk : token) (l : token_list) :
  List.length (flush_pending tk l)
  = (List.length l + if known tk then 1 else 0)%nat.
Proof.
  unfold flush_pending, push_back, known.
  destruct (negb _); [|lia].
  rewrite length_app. reflexivity.
Qed.

(** Every token the scan appends has a valid kind, and the scan appends at
    most one token for each character. *)
Lemma parse_loop_known (l : list ascii) (s : scan) :
  forallb known (scanned s) = true ->
  forallb known (scanned (parse_loop l s)) = true
  /\ (List.length
        (flush_pending (pending (parse_loop l s)) (scanned (parse_loop l s)))
      <= List.length (flush_pending (pending s) (scanned s)) + List.length l)%nat.
Proof.
  revert s. induction l as [|rune l IH]; intros s Hs; [simpl; split; [auto|lia]|].
  change (List.length (rune :: l)) with (S (List.length l)).
  scan_cases rune.
  - destruct (IH s Hs). split; [assumption|lia].
  - match goal with |- context [parse_loop l ?s'] =>
      destruct (IH s' Hs) as [H1 H2] end.
    split; [assumption|].
    rewrite !flush_pending_length in *. cbn [pending scanned] in H2.
    change (known (mk_token token_type.number
                     (text (pending s) ++ String rune EmptyString)
                     (number (pending s)))) with true in H2.
    cbv iota in H2.
    destruct (known (pending s)), (known (pending (parse_loop l _))); lia.
  - match goal with |- context [parse_loop l ?s'] =>
      assert (forallb known (scanned s') = true) as Hs';
      [|destruct (IH s' Hs') as [H1 H2]] end.
    { simpl. unfold push_back.
      rewrite forallb_app, (flush_pending_known _ _ Hs). simpl.
      unfold known. simpl.
      apply operator_type_known in Hoper.
      apply token_type_eqb_neq in Hoper. now rewrite Hoper. }
    split; [assumption|].
    rewrite !flush_pending_length in *. cbn [pending scanned] in H2.
    rewrite push_back_length, flush_pending_length in H2.
    change (known empty_token) with false in H2.
    cbv iota in H2.
    destruct (known (pending s)), (known (pending (parse_loop l _))); lia.
  - simpl. split; [assumption|lia].
Qed.

Lemma length_list_ascii (s : string) :
  List.length (list_ascii_of_string s) = String.length s.
Proof. induction s; simpl; congruence. Qed.

Lemma lex_tokens_known (src : string) :
  forallb known (tokens (lex (new src))) = true
  /\ (List.length (tokens (lex (new src))) <= String.length src)%nat.
Proof.
  unfold lex. simpl.
  destruct (parse_loop_known (list_ascii_of_string src)
              (mk_scan empty_token [] false) eq_refl) as [H1 H2].
  split; [now apply flush_pending_known|].
  rewrite length_list_ascii in H2. simpl in H2. exact H2.
Qed.

End Scan.

(** C3, the claim as stated fails: on 2+3# the scan stops at # with the
    Number token 3 pending and not yet in the sequence, and [parse] appends
    it all the same. *)
Lemma parse_rejected_appends_pending :
  tokenizer.failed (scan_of "2+3#") = true
  /\ tokenizer.scanned (scan_of "2+3#")
     = [Num "2" 2; Sym token_type.op_add "+"]
  /\ tokenizer.pending (scan_of "2+3#") = Num "3" 0
  /\ tokenizer.tokens (tokenizer.parse (tokenizer.new "2+3#"))
     = [Num "2" 2; Sym token_type.op_add "+"; Num "3" 3]
  /\ tokenizer.tokens (tokenizer.parse (tokenizer.new "2+3#"))
     <> tokenizer.scanned (scan_of "2+3#").
Proof. vm_compute. repeat split. discriminate. Qed.

(** C3, amended: a string with a character that is neither whitespace, nor
    a digit or point, nor one of + - * / ( ) makes [parse] stop at the first
    such character with the error flag set; what follows it is not read.
    The token pending at that character is flushed as at the end of the
    input: a pending Number token is converted and appended. *)
Theorem parse_halts_at_rejected_character (src : string) :
  (exists c, In c (list_ascii_of_string src) /\ accepted c = false) ->
  exists pre c post,
    src = (pre ++ String c post)%string
    /\ Forall (fun x => accepted x = true) (list_ascii_of_string pre)
    /\ accepted c = false
    /\ tokenizer.error (tokenizer.parse (tokenizer.new src)) = true
    /\ tokenizer.tokens (tokenizer.parse (tokenizer.new src))
       = tokenizer.flush_pending (tokenizer.pending (scan_of pre))
           (tokenizer.scanned (scan_of pre))
    /\ (type (tokenizer.pending (scan_of pre)) = token_type.number ->
        tokenizer.tokens (tokenizer.parse (tokenizer.new src))
        = tokenizer.scanned (scan_of pre)
          ++ [mk_token token_type.number
                (text (tokenizer.pending (scan_of pre)))
                (atof (text (tokenizer.pending (scan_of pre))))])
    /\ forall post',
         tokenizer.error
           (tokenizer.parse (tokenizer.new (pre ++ String c post'))) = true
         /\ tokenizer.tokens
              (tokenizer.parse (tokenizer.new (pre ++ String c post')))
            = tokenizer.tokens (tokenizer.parse (tokenizer.new src)).
Proof.
  intros H. destruct (first_rejected src H) as (pre & c & post & -> & Hpre & Hc).
  exists pre, c, post.
  assert (forall post',
             tokenizer.error
               (tokenizer.parse (tokenizer.new (pre ++ String c post'))) = true
             /\ tokenizer.tokens
                  (tokenizer.parse (tokenizer.new (pre ++ String c post')))
                = tokenizer.flush_pending (tokenizer.pending (scan_of pre))
                    (tokenizer.scanned (scan_of pre))) as Hany.
  { intros post'. split.
    - apply verify_tokenlist_keeps_error. unfold tokenizer.lex. simpl.
      fold (scan_of (pre ++ String c post')).
      now rewrite (scan_of_rejected _ _ _ Hpre Hc).
    - now rewrite parse_tokens, (scan_of_rejected _ _ _ Hpre Hc). }
  destruct (Hany post) as [Herr Htok].
  conjuncts; try assumption; try reflexivity.
  - intros Hnum. rewrite Htok. unfold tokenizer.flush_pending, push_back.
    now rewrite Hnum.
  - intros post'. split; [apply Hany | rewrite Htok; apply Hany].
Qed.

Lemma parse_halts_at_rejected_character_witness :
  exists pre c post,
    "12#+"%string = (pre ++ String c post)%string
    /\ Forall (fun x => accepted x = true) (list_ascii_of_string pre)
    /\ accepted c = false
    /\ tokenizer.error (tokenizer.parse (tokenizer.new "12#+")) = true
    /\ tokenizer.tokens (tokenizer.parse (tokenizer.new "12#+"))
       = tokenizer.flush_pending (tokenizer.pending (scan_of pre))
           (tokenizer.scanned (scan_of pre))
    /\ (type (tokenizer.pending (scan_of pre)) = token_type.number ->
        tokenizer.tokens (tokenizer.parse (tokenizer.new "12#+"))
        = tokenizer.scanned (scan_of pre)
          ++ [mk_token token_type.number
                (text (tokenizer.pending (scan_of pre)))
                (atof (text (tokenizer.pending (scan_of pre))))])
    /\ forall post',
         tokenizer.error
           (tokenizer.parse (tokenizer.new (pre ++ String c post'))) = true
         /\ tokenizer.tokens
              (tokenizer.parse (tokenizer.new (pre ++ String c post')))
            = tokenizer.tokens (tokenizer.parse (tokenizer.new "12#+")).
Proof.
  apply (parse_halts_at_rejected_character "12#+").
  exists "#"%char. split; [simpl; auto | reflexivity].
Defined.

(** C9: whitespace is skipped: the tokens and the error flag of a string
    are those of the string without its whitespace, and no text of a token
    holds a whitespace character; so a space does not end a pending Number
    token, and 1 2 is lexed as the one Number token 12. *)
Theorem parse_skips_whitespace :
  forall src : string,
    tokenizer.tokens (tokenizer.parse (tokenizer.new src))
    = tokenizer.tokens (tokenizer.parse (tokenizer.new (strip_spaces src)))
    /\ tokenizer.error (tokenizer.parse (tokenizer.new src))
       = tokenizer.error (tokenizer.parse (tokenizer.new (strip_spaces src)))
    /\ forallb spaceless
         (tokenizer.tokens (tokenizer.parse (tokenizer.new src))) = true
    /\ tokenizer.parse (tokenizer.new "1 2")
       = tokenizer.mk "1 2" [Num "12" 12] false
    /\ tokenizer.parse (tokenizer.new "12")
       = tokenizer.mk "12" [Num "12" 12] false.
Proof.
  intros src. split; [|split]; [| |split].
  - apply parse_ext. unfold scan_of, strip_spaces.
    rewrite list_ascii_of_string_of_list_ascii.
    apply parse_loop_skips_spaces.
  - apply parse_ext. unfold scan_of, strip_spaces.
    rewrite list_ascii_of_string_of_list_ascii.
    apply parse_loop_skips_spaces.
  - rewrite parse_tokens.
    destruct (parse_loop_spaceless (list_ascii_of_string src)
                (tokenizer.mk_scan empty_token [] false)
                eq_refl eq_refl) as [Hp Hs].
    now apply flush_pending_spaceless.
  - vm_compute. split; reflexivity.
Qed.

(** C4: on a source that lexes without error (shorter than [2^31]
    characters, so that the [int] counters do not overflow), [parse] sets
    the error flag exactly when the open and close brackets differ in
    number or the Number tokens are not one more than the operator tokens;
    so do the sources 2+ and ((2+3). *)
Theorem parse_structural_error :
  (forall src : string,
     Z.of_nat (String.length src) < 2 ^ 31 ->
     tokenizer.error (tokenizer.lex (tokenizer.new src)) = false ->
     let tl := tokenizer.tokens (tokenizer.parse (tokenizer.new src)) in
     tokenizer.error (tokenizer.parse (tokenizer.new src)) = true
     <-> (count_type token_type.open_bracket tl
          <> count_type token_type.close_bracket tl
          \/ count_type token_type.number tl <> (count_operators tl + 1)%nat))
  /\ tokenizer.error (tokenizer.lex (tokenizer.new "2+")) = false
  /\ tokenizer.error (tokenizer.parse (tokenizer.new "2+")) = true
  /\ tokenizer.error (tokenizer.lex (tokenizer.new "((2+3)")) = false
  /\ tokenizer.error (tokenizer.parse (tokenizer.new "((2+3)")) = true.
Proof.
  split; [|vm_compute; repeat split].
  intros src Hlen Hlex tl. subst tl.
  unfold tokenizer.parse. rewrite verify_tokenlist_tokens.
  destruct (lex_tokens_known src) as [Hknown Hle].
  pose proof (count_operators_le (tokenizer.tokens
                                    (tokenizer.lex (tokenizer.new src)))) as Hsum.
  unfold tokenizer.verify_tokenlist. rewrite Hlex.
  set (tl := tokenizer.tokens (tokenizer.lex (tokenizer.new src))) in *.
  pose proof (fold_count_token tl 0 0 0 0 false) as Hfold.
  change (Z.of_nat 0) with 0 in Hfold.
  rewrite Hfold by (simpl; lia). clear Hfold.
  cbn [tokenizer.error tokenizer.bad_type tokenizer.numbers_count
       tokenizer.operations_count tokenizer.open_brackets_count
       tokenizer.close_brackets_count Nat.add].
  rewrite Hknown. cbn [negb orb].
  set (n := count_type token_type.number tl) in *.
  set (o := count_operators tl) in *.
  set (ob := count_type token_type.open_bracket tl).
  set (cb := count_type token_type.close_bracket tl).
  assert ((Z.of_nat n =? wrap_int (Z.of_nat o + 1)) = true
          <-> n = (o + 1)%nat) as Hnum.
  { rewrite Z.eqb_eq.
    destruct (Z.eq_dec (Z.of_nat o + 1) (2 ^ 31)) as [Hmax | Hmax].
    - rewrite Hmax. change (wrap_int (2 ^ 31)) with (- 2 ^ 31). lia.
    - rewrite wrap_int_small by lia. lia. }
  assert ((Z.of_nat ob =? Z.of_nat cb) = true <-> ob = cb) as Hbr
      by (rewrite Z.eqb_eq; lia).
  destruct (Z.of_nat n =? wrap_int (Z.of_nat o + 1)),
    (Z.of_nat ob =? Z.of_nat cb); cbn [negb]; split; intros H;
    try reflexivity; try discriminate;
    try (destruct H as [H | H]; exfalso; apply H;
         [apply Hbr | apply Hnum]; reflexivity);
    first [ left; intros E; apply Hbr in E; discriminate
          | right; intros E; apply Hnum in E; discriminate ].
Qed.

(** The two sources of the claim, through the equivalence. *)
Lemma parse_structural_error_witness :
  tokenizer.error (tokenizer.parse (tokenizer.new "2+")) = true
  /\ tokenizer.error (tokenizer.parse (tokenizer.new "((2+3)")) = true.
Proof.
  split.
  - apply (proj1 parse_structural_error "2+"%string); [reflexivity | reflexivity |].
    right. vm_compute. discriminate.
  - apply (proj1 parse_structural_error "((2+3)"%string); [reflexivity | reflexivity |].
    left. vm_compute. discriminate.
Defined.

(** ** Whole runs *)

(** C5: the source 2+3*4 is lexed as Number 2, Add, Number 3, Mul,
    Number 4 and [solve] gives 14 without error; the source (2+3)*4 gives
    20 without error. *)
Theorem solve_precedence_examples :
  tokenizer.parse (tokenizer.new "2+3*4")
  = tokenizer.mk "2+3*4"
      [Num "2" 2; Sym token_type.op_add "+"; Num "3" 3;
       Sym token_type.op_mul "*"; Num "4" 4] false
  /\ eval.solve (eval.of_tokenizer (tokenizer.parse (tokenizer.new "2+3*4")))
     = Defined
         (eval.mk [Num "2" 2; Num "3" 3; Num "4" 4;
                   Sym token_type.op_mul "*"; Sym token_type.op_add "+"]
            false 14)
  /\ tokenizer.error (tokenizer.parse (tokenizer.new "(2+3)*4")) = false
  /\ eval.solve
       (eval.of_tokenizer (tokenizer.parse (tokenizer.new "(2+3)*4")))
     = Defined
         (eval.mk [Num "2" 2; Num "3" 3; Sym token_type.op_add "+";
                   Num "4" 4; Sym token_type.op_mul "*"]
            false 20).
Proof. vm_compute. repeat split. Qed.

(** C8: some source passes the lexical and the structural check and is
    evaluated without error to a value that is not the one standard
    precedence gives: 1+2*3*4 is rewritten to 1 2 3 * + 4 *, which is 28,
    while the reference gives 1 + (2*3)*4 = 25. *)
Theorem flush_rule_misorders :
  exists (src : string) (e : eval.t) (v : float),
    tokenizer.error (tokenizer.lex (tokenizer.new src)) = false
    /\ tokenizer.error (tokenizer.parse (tokenizer.new src)) = false
    /\ eval.solve (eval.of_tokenizer (tokenizer.parse (tokenizer.new src)))
       = Defined e
    /\ eval.error e = false
    /\ reference.value (tokenizer.tokens (tokenizer.parse (tokenizer.new src)))
       = Some v
    /\ eval.result e = 28%float
    /\ v = PrimFloat.add 1 (PrimFloat.mul (PrimFloat.mul 2 3) 4)
    /\ eval.result e <> v.
Proof.
  exists "1+2*3*4"%string.
  exists (eval.mk [Num "1" 1; Num "2" 2; Num "3" 3;
                   Sym token_type.op_mul "*"; Sym token_type.op_add "+";
                   Num "4" 4; Sym token_type.op_mul "*"] false 28).
  exists 25%float.
  do 7 (split; [vm_compute; reflexivity|]).
  simpl. intros H.
  apply (f_equal (fun x => PrimFloat.ltb x 26)) in H.
  vm_compute in H. discriminate.
Qed.

(** C2, the failing run: the source (1+)2 passes [parse] (two numbers, one
    operator, one bracket of each kind) and is rewritten without error to
    1 + 2; [solve] then meets the operator with one value on the operand
    stack, and the second [top()] is on an empty stack. *)
Theorem solve_operand_underflow :
  tokenizer.error (tokenizer.parse (tokenizer.new "(1+)2")) = false
  /\ eval.to_postfix
       (eval.of_tokenizer (tokenizer.parse (tokenizer.new "(1+)2")))
     = eval.mk [Num "1" 1; Sym token_type.op_add "+"; Num "2" 2] false 0
  /\ eval.solve_loop [Sym token_type.op_add "+"; Num "2" 2] [Num "1" 1] false
     = Undefined operand_underflow
  /\ eval.solve (eval.of_tokenizer (tokenizer.parse (tokenizer.new "(1+)2")))
     = Undefined operand_underflow
  /\ ~ (forall src : string,
          tokenizer.error (tokenizer.parse (tokenizer.new src)) = false ->
          eval.solve
            (eval.of_tokenizer (tokenizer.parse (tokenizer.new src)))
          <> Undefined operand_underflow).
Proof.
  split; [vm_compute; reflexivity|].
  split; [vm_compute; reflexivity|].
  split; [vm_compute; reflexivity|].
  split; [vm_compute; reflexivity|].
  intros H. apply (H "(1+)2"%string); vm_compute; reflexivity.
Qed.

(** C10: [parse()] on a tokenizer built from the empty string sets the
    error flag: the token sequence is empty, and zero numbers is not zero
    operators plus one. *)
Theorem parse_empty_error :
  tokenizer.error (tokenizer.lex (tokenizer.new "")) = false
  /\ tokenizer.tokens (tokenizer.parse (tokenizer.new "")) = []
  /\ count_type token_type.number [] <> (count_operators [] + 1)%nat
  /\ tokenizer.error_state (tokenizer.parse (tokenizer.new "")) = true.
Proof. vm_compute. repeat split. discriminate. Qed.

(** * Further properties *)

(** ** [string_strip] *)

Lemma append_assoc (a b c : string) :
  ((a ++ b) ++ c)%string = (a ++ (b ++ c))%string.
Proof. induction a as [|x a IH]; simpl; [reflexivity | now rewrite IH]. Qed.

Lemma append_empty_r (a : string) : (a ++ EmptyString)%string = a.
Proof. induction a as [|x a IH]; simpl; [reflexivity | now rewrite IH]. Qed.

Lemma all_space_app (a b : string) :
  all_space (a ++ b) = (all_space a && all_space b)%bool.
Proof.
  unfold all_space. now rewrite list_ascii_of_string_app, forallb_app.
Qed.

(** A non-empty string is what [remove_last] keeps, followed by its last
    character. *)
Lemma last_view (s : string) :
  s = EmptyString
  \/ exists c, last_char s = Some c
               /\ s = (remove_last s ++ String c EmptyString)%string
               /\ String.length s = S (String.length (remove_last s)).
Proof.
  induction s as [|x s IH]; [now left|]. right.
  destruct IH as [-> | (c & Hlast & Hs & Hlen)].
  - exists x. simpl. auto.
  - exists c. destruct s as [|y s]; [discriminate|].
    repeat split.
    + exact Hlast.
    + change (remove_last (String x (String y s)))
        with (String x (remove_last (String y s))).
      cbn [append]. now rewrite <- Hs.
    + change (remove_last (String x (String y s)))
        with (String x (remove_last (String y s))).
      cbn [String.length]. cbn [String.length] in Hlen. now rewrite Hlen.
Qed.

Lemma first_char_app (a b : string) :
  a <> EmptyString -> first_char (a ++ b) = first_char a.
Proof. destruct a; [congruence | reflexivity]. Qed.

Lemma erase_front_spec (s : string) :
  exists a, s = (a ++ erase_front s)%string
            /\ all_space a = true
            /\ not_space (first_char (erase_front s)) = true.
Proof.
  induction s as [|c s (a & Hs & Ha & Hf)].
  - exists EmptyString. auto.
  - simpl. destruct (isspace c) eqn:Hc.
    + exists (String c a). simpl. rewrite <- Hs.
      unfold all_space in *. simpl. rewrite Hc, Ha. auto.
    + exists EmptyString. simpl. rewrite Hc. auto.
Qed.

Lemma erase_back_loop_spec (fuel : nat) :
  forall s, (String.length s <= fuel)%nat ->
  exists b, s = (erase_back_loop fuel s ++ b)%string
            /\ all_space b = true
            /\ not_space (last_char (erase_back_loop fuel s)) = true
            /\ (erase_back_loop fuel s = EmptyString
                \/ first_char (erase_back_loop fuel s) = first_char s).
Proof.
  induction fuel as [|fuel IH]; intros s Hlen.
  - destruct s; [|simpl in Hlen; lia].
    exists EmptyString. simpl. auto.
  - simpl. destruct (last_view s) as [-> | (c & Hlast & Hs & Hl)].
    + exists EmptyString. simpl. auto.
    + rewrite Hlast. destruct (isspace c) eqn:Hc.
      * destruct (IH (remove_last s)) as (b & Hb & Hsp & Hnl & Hfirst);
          [lia|].
        exists (b ++ String c EmptyString)%string.
        split; [|split; [|split]].
        -- rewrite <- append_assoc, <- Hb. exact Hs.
        -- rewrite all_space_app, Hsp. unfold all_space. simpl.
           now rewrite Hc.
        -- exact Hnl.
        -- destruct Hfirst as [He | Hf]; [now left|].
           destruct (remove_last s) eqn:Hr.
           ++ left. destruct fuel; reflexivity.
           ++ right. rewrite Hf, Hs. reflexivity.
      * exists EmptyString. rewrite append_empty_r, Hlast. simpl.
        rewrite Hc. auto.
Qed.

Lemma erase_back_fixed (s : string) :
  not_space (last_char s) = true -> erase_back s = s.
Proof.
  unfold erase_back. intros H.
  destruct (String.length s); simpl; [reflexivity|].
  destruct (last_char s) as [c|]; [|reflexivity].
  simpl in H. now destruct (isspace c).
Qed.

Lemma erase_front_fixed (s : string) :
  not_space (first_char s) = true -> erase_front s = s.
Proof.
  destruct s as [|c s]; [reflexivity|]. simpl. now destruct (isspace c).
Qed.

(** The line is whitespace, the stripped line, whitespace. *)
Lemma string_strip_parts (str : string) :
  exists a b,
    str = (a ++ string_strip str ++ b)%string
    /\ all_space a = true
    /\ all_space b = true
    /\ not_space (first_char (string_strip str)) = true
    /\ not_space (last_char (string_strip str)) = true.
Proof.
  destruct (erase_front_spec str) as (a & Ha & Hsa & Hfa).
  destruct (erase_back_loop_spec (String.length (erase_front str))
              (erase_front str) (Nat.le_refl _)) as (b & Hb & Hsb & Hlb & Hfb).
  fold (erase_back (erase_front str)) in *. fold (string_strip str) in *.
  exists a, b. rewrite <- Hb.
  repeat split; try assumption.
  destruct Hfb as [-> | ->]; [reflexivity | assumption].
Qed.

(** X1: [string_strip] cuts a run of whitespace off each end of the line
    and nothing else: the line is whitespace, then the result, then
    whitespace, and the result neither begins nor ends with whitespace. *)
Theorem string_strip_spec (str : string) :
  exists a b,
    str = (a ++ string_strip str ++ b)%string
    /\ all_space a = true
    /\ all_space b = true
    /\ not_space (first_char (string_strip str)) = true
    /\ not_space (last_char (string_strip str)) = true.
Proof. exact (string_strip_parts str). Qed.

(** X2: a string that neither begins nor ends with whitespace is left as
    it is, so stripping twice is stripping once. *)
Theorem string_strip_fixed :
  (forall s : string,
     not_space (first_char s) = true ->
     not_space (last_char s) = true ->
     string_strip s = s)
  /\ forall s : string, string_strip (string_strip s) = string_strip s.
Proof.
  assert (forall s : string,
             not_space (first_char s) = true ->
             not_space (last_char s) = true ->
             string_strip s = s) as Hfix.
  { intros s Hf Hl. unfold string_strip.
    rewrite (erase_front_fixed _ Hf). now apply erase_back_fixed. }
  split; [exact Hfix|].
  intros s. destruct (string_strip_parts s) as (a & b & _ & _ & _ & Hf & Hl).
  now apply Hfix.
Qed.

Lemma string_strip_fixed_witness :
  string_strip "1 + 2" = "1 + 2"%string.
Proof.
  apply (proj1 string_strip_fixed "1 + 2"%string); reflexivity.
Defined.

(** The stripped line is empty on blank lines only. *)
Lemma string_strip_blank (str : string) :
  string_strip str = EmptyString <-> all_space str = true.
Proof.
  destruct (string_strip_parts str) as (a & b & Hs & Ha & Hb & Hf & Hl).
  split.
  - intros He. rewrite Hs, He. simpl. now rewrite all_space_app, Ha, Hb.
  - intros Hall. rewrite Hs in Hall.
    rewrite !all_space_app in Hall.
    apply andb_prop in Hall. destruct Hall as [_ Hall].
    apply andb_prop in Hall. destruct Hall as [Hall _].
    destruct (string_strip str) as [|c r]; [reflexivity|].
    unfold all_space in Hall. simpl in *.
    apply andb_prop in Hall. destruct Hall as [Hc _].
    rewrite Hc in Hf. discriminate.
Qed.

(** X3: the stripped line is empty exactly when the line holds nothing but
    whitespace. *)
Theorem string_strip_empty (str : string) :
  string_strip str = EmptyString <-> all_space str = true.
Proof. exact (string_strip_blank str). Qed.

Lemma string_strip_empty_witness :
  string_strip "   " = EmptyString.
Proof. apply (proj2 (string_strip_empty "   ")). reflexivity. Defined.

(** ** The line as [main] hands it to the tokenizer *)

Lemma filter_all_space (a : string) :
  all_space a = true ->
  filter (fun c => negb (isspace c)) (list_ascii_of_string a) = [].
Proof.
  unfold all_space. induction (list_ascii_of_string a) as [|c l IH];
    simpl; [reflexivity|].
  intros H. apply andb_prop in H. destruct H as [Hc Hl].
  rewrite Hc. simpl. now apply IH.
Qed.

(** Whitespace around a string does not show in its scan. *)
Lemma scan_of_padded (a r b : string) :
  all_space a = true -> all_space b = true ->
  scan_of (a ++ r ++ b) = scan_of r.
Proof.
  intros Ha Hb. unfold scan_of.
  rewrite (parse_loop_skips_spaces (list_ascii_of_string (a ++ r ++ b))),
    (parse_loop_skips_spaces (list_ascii_of_string r)).
  rewrite !list_ascii_of_string_app, !filter_app.
  rewrite (filter_all_space a Ha), (filter_all_space b Hb).
  now rewrite app_nil_r.
Qed.

Lemma scan_of_string_strip (line : string) :
  scan_of (string_strip line) = scan_of line.
Proof.
  destruct (string_strip_parts line) as (a & b & Hs & Ha & Hb & _).
  rewrite Hs at 2. symmetry. now apply scan_of_padded.
Qed.

Lemma scan_of_strip_spaces (line : string) :
  scan_of (strip_spaces line) = scan_of line.
Proof.
  unfold scan_of, strip_spaces.
  rewrite list_ascii_of_string_of_list_ascii.
  symmetry. apply parse_loop_skips_spaces.
Qed.

Lemma all_space_strip_spaces (line : string) :
  all_space (strip_spaces line) = all_space line.
Proof.
  unfold all_space, strip_spaces.
  rewrite list_ascii_of_string_of_list_ascii.
  induction (list_ascii_of_string line) as [|c l IH]; [reflexivity|].
  simpl. destruct (isspace c) eqn:Hc; simpl; [exact IH|].
  now rewrite Hc.
Qed.

(** [parse] does not see the stripping. *)
Lemma parse_of_string_strip (line : string) :
  tokenizer.tokens (tokenizer.parse (tokenizer.new (string_strip line)))
  = tokenizer.tokens (tokenizer.parse (tokenizer.new line))
  /\ tokenizer.error (tokenizer.parse (tokenizer.new (string_strip line)))
     = tokenizer.error (tokenizer.parse (tokenizer.new line)).
Proof. apply parse_ext, scan_of_string_strip. Qed.

(** X4: stripping the line first changes neither the tokens nor the error
    flag [parse] ends with. *)
Theorem parse_string_strip (line : string) :
  tokenizer.tokens (tokenizer.parse (tokenizer.new (string_strip line)))
  = tokenizer.tokens (tokenizer.parse (tokenizer.new line))
  /\ tokenizer.error (tokenizer.parse (tokenizer.new (string_strip line)))
     = tokenizer.error (tokenizer.parse (tokenizer.new line)).
Proof. exact (parse_of_string_strip line). Qed.

(** Two lines with the same scan, both blank or both not, get the same
    reply. *)
Lemma main_step_ext (a b : string) :
  scan_of (string_strip a) = scan_of (string_strip b) ->
  all_space a = all_space b ->
  main_step a = main_step b.
Proof.
  intros Hscan Hall. unfold main_step.
  assert (String.eqb (string_strip a) EmptyString
          = String.eqb (string_strip b) EmptyString) as He.
  { destruct (String.eqb_spec (string_strip a) EmptyString) as [Ea | Ea],
      (String.eqb_spec (string_strip b) EmptyString) as [Eb | Eb];
      try reflexivity; exfalso.
    - apply Eb, string_strip_blank. rewrite <- Hall.
      now apply string_strip_blank.
    - apply Ea, string_strip_blank. rewrite Hall.
      now apply string_strip_blank. }
  rewrite He.
  destruct (parse_ext _ _ Hscan) as [Htok Herr].
  unfold tokenizer.error_state, eval.of_tokenizer, tokenizer.get_tokens.
  now rewrite Htok, Herr.
Qed.

(** X5: the loop of [main] ends on a line exactly when the line holds
    nothing but whitespace; any other line gets a reply. *)
Theorem main_step_ends (line : string) :
  main_step line = None <-> all_space line = true.
Proof.
  rewrite <- string_strip_blank. unfold main_step.
  destruct (String.eqb_spec (string_strip line) EmptyString) as [E | E];
    simpl.
  - tauto.
  - split; [|contradiction].
    destruct (tokenizer.error_state _); [discriminate|].
    destruct (eval.solve _) as [ev | f]; [|discriminate].
    destruct (eval.error_state ev); discriminate.
Qed.

Lemma main_step_ends_witness :
  main_step "  " = None.
Proof. apply (proj2 (main_step_ends "  ")). reflexivity. Defined.

(** X6: whitespace anywhere in the line does not change the reply of
    [main]. *)
Theorem main_step_whitespace (line : string) :
  main_step line = main_step (strip_spaces line).
Proof.
  apply main_step_ext.
  - now rewrite !scan_of_string_strip, scan_of_strip_spaces.
  - now rewrite all_space_strip_spaces.
Qed.

(** ** What the lexer builds *)

(** The turn of the scanning loop on [rune], by the class of [rune]. *)
Ltac rune_cases rune :=
  let Hs := fresh "Hspace" in
  let Hv := fresh "Hvalue" in
  let Ho := fresh "Hoper" in
  destruct (isspace rune) eqn:Hs;
  [ rewrite !(parse_loop_space rune _ _ Hs)
  | destruct (tokenizer.is_value rune) eqn:Hv;
    [ rewrite !(parse_loop_value rune _ _ Hs Hv)
    | destruct (tokenizer.is_operator rune) eqn:Ho;
      [ rewrite !(parse_loop_operator rune _ _ Hs Hv Ho)
      | rewrite !(parse_loop_rejected rune)
          by (unfold accepted; now rewrite Hs, Hv, Ho) ] ] ].

Lemma operator_type_cases (rune : ascii) :
  tokenizer.is_operator rune = true ->
  tokenizer.operator_type rune <> token_type.unknown
  /\ tokenizer.operator_type rune <> token_type.number.
Proof.
  unfold tokenizer.is_operator, tokenizer.operator_type.
  destruct (Ascii.eqb rune "+"), (Ascii.eqb rune "-"), (Ascii.eqb rune "*"),
    (Ascii.eqb rune "/"), (Ascii.eqb rune "("), (Ascii.eqb rune ")");
    simpl; split; congruence.
Qed.

Lemma operator_token_well_formed (rune : ascii) :
  tokenizer.is_operator rune = true ->
  well_formed (mk_token (tokenizer.operator_type rune)
                 (String rune EmptyString) PrimFloat.zero).
Proof.
  intros H. destruct (operator_type_cases rune H) as [Hu Hn].
  unfold well_formed. simpl.
  destruct (tokenizer.operator_type rune) eqn:E; try congruence;
    exists rune; auto.
Qed.

Lemma flush_pending_well_formed (tk : token) (l : token_list) :
  pending_ok tk -> Forall well_formed l ->
  Forall well_formed (tokenizer.flush_pending tk l).
Proof.
  intros Hp Hl. unfold tokenizer.flush_pending, push_back.
  destruct Hp as [[Hu _] | (Hn & Hne & Hv)].
  - now rewrite Hu.
  - rewrite Hn. simpl. apply Forall_app. split; [assumption|].
    constructor; [|constructor].
    unfold well_formed. simpl. auto.
Qed.

Lemma parse_loop_well_formed (l : list ascii) :
  forall s, pending_ok (tokenizer.pending s) ->
            Forall well_formed (tokenizer.scanned s) ->
            pending_ok (tokenizer.pending (tokenizer.parse_loop l s))
            /\ Forall well_formed (tokenizer.scanned (tokenizer.parse_loop l s)).
Proof.
  induction l as [|rune l IH]; intros s Hp Hs; [auto|].
  rune_cases rune.
  - now apply IH.
  - apply IH; [|assumption]. right. simpl.
    split; [reflexivity|]. split.
    + destruct (text (tokenizer.pending s)); discriminate.
    + rewrite list_ascii_of_string_app, forallb_app. simpl.
      rewrite Hvalue.
      destruct Hp as [[_ ->] | (_ & _ & ->)]; reflexivity.
  - apply IH; [left; split; reflexivity|]. simpl. unfold push_back.
    apply Forall_app. split.
    + now apply flush_pending_well_formed.
    + constructor; [|constructor]. now apply operator_token_well_formed.
  - simpl. auto.
Qed.

(** X7: every token [parse] leaves is as the lexer builds them: never of
    unknown kind; a Number token has a non-empty text of digits and points
    and the value [atof] gives that text; any other token has the one
    character of its kind as text and the number zero. *)
Theorem parse_tokens_well_formed (src : string) :
  Forall well_formed (tokenizer.tokens (tokenizer.parse (tokenizer.new src))).
Proof.
  rewrite parse_tokens.
  destruct (parse_loop_well_formed (list_ascii_of_string src)
              (tokenizer.mk_scan empty_token [] false)) as [Hp Hs].
  - left. split; reflexivity.
  - constructor.
  - now apply flush_pending_well_formed.
Qed.

Lemma source_text_app (a b : token_list) :
  source_text (a ++ b) = (source_text a ++ source_text b)%string.
Proof.
  induction a as [|tk a IH]; simpl; [reflexivity|].
  now rewrite IH, append_assoc.
Qed.

Lemma source_text_flush_pending (tk : token) (l : token_list) :
  pending_ok tk ->
  source_text (tokenizer.flush_pending tk l)
  = (source_text l ++ text tk)%string.
Proof.
  intros Hp. unfold tokenizer.flush_pending, push_back.
  destruct Hp as [[Hu Ht] | (Hn & _)].
  - rewrite Hu, Ht. simpl. now rewrite append_empty_r.
  - rewrite Hn. simpl. rewrite source_text_app. simpl.
    now rewrite append_empty_r.
Qed.

Lemma string_of_list_ascii_app (a b : list ascii) :
  string_of_list_ascii (a ++ b)
  = (string_of_list_ascii a ++ string_of_list_ascii b)%string.
Proof. induction a as [|c a IH]; simpl; [reflexivity | now rewrite IH]. Qed.

(** Over accepted characters, the texts of the tokens built so far and of
    the pending one grow by the characters read, whitespace apart. *)
Lemma parse_loop_source_text (l : list ascii) :
  forall s, pending_ok (tokenizer.pending s) ->
            forallb accepted l = true ->
            (source_text (tokenizer.scanned (tokenizer.parse_loop l s))
             ++ text (tokenizer.pending (tokenizer.parse_loop l s)))%string
            = (source_text (tokenizer.scanned s)
               ++ text (tokenizer.pending s)
               ++ string_of_list_ascii
                    (filter (fun c => negb (isspace c)) l))%string.
Proof.
  induction l as [|rune l IH]; intros s Hp Hacc.
  - simpl. now rewrite append_empty_r.
  - simpl in Hacc. apply andb_prop in Hacc. destruct Hacc as [Hrune Hacc].
    cbn [filter].
    rune_cases rune; cbn [negb].
    + now apply IH.
    + rewrite IH; [|right; simpl; split; [reflexivity|split]|assumption].
      * simpl. now rewrite append_assoc.
      * destruct (text (tokenizer.pending s)); discriminate.
      * rewrite list_ascii_of_string_app, forallb_app. simpl.
        rewrite Hvalue.
        destruct Hp as [[_ ->] | (_ & _ & ->)]; reflexivity.
    + rewrite IH; [|left; split; reflexivity|assumption].
      simpl. unfold push_back.
      rewrite source_text_app, (source_text_flush_pending _ _ Hp). simpl.
      now rewrite !append_assoc.
    + unfold accepted in Hrune. rewrite Hspace, Hvalue, Hoper in Hrune.
      discriminate.
Qed.

(** X8: a source that lexes without error is read back from its tokens:
    their texts, one after the other, are the source without its
    whitespace. *)
Theorem parse_source_text (src : string) :
  tokenizer.error (tokenizer.lex (tokenizer.new src)) = false ->
  source_text (tokenizer.tokens (tokenizer.parse (tokenizer.new src)))
  = strip_spaces src.
Proof.
  intros Hlex. rewrite lex_error in Hlex. apply negb_false_iff in Hlex.
  rewrite parse_tokens.
  assert (pending_ok empty_token) as H0 by (left; split; reflexivity).
  pose proof (parse_loop_well_formed (list_ascii_of_string src)
                (tokenizer.mk_scan empty_token [] false)
                H0 (Forall_nil _)) as [Hp _].
  fold (scan_of src) in Hp.
  rewrite (source_text_flush_pending _ _ Hp).
  unfold scan_of.
  rewrite (parse_loop_source_text (list_ascii_of_string src)
             (tokenizer.mk_scan empty_token [] false) H0 Hlex).
  reflexivity.
Qed.

Lemma parse_source_text_witness :
  source_text (tokenizer.tokens (tokenizer.parse (tokenizer.new " 12 *(3+ 4.5)")))
  = "12*(3+4.5)"%string.
Proof.
  exact (parse_source_text " 12 *(3+ 4.5)" eq_refl).
Defined.

Lemma no_adjacent_numbers_snoc (l : token_list) (x : token) :
  no_adjacent_numbers (l ++ [x])
  = (no_adjacent_numbers l
     && negb (eval.is_number (last l empty_token) && eval.is_number x))%bool.
Proof.
  induction l as [|a l IH]; [reflexivity|].
  destruct l as [|b l].
  - simpl. now rewrite !andb_true_r.
  - change ((a :: b :: l) ++ [x]) with (a :: ((b :: l) ++ [x])).
    change (last (a :: b :: l) empty_token) with (last (b :: l) empty_token).
    cbn [no_adjacent_numbers] in *. cbn [app] in *.
    rewrite IH. now rewrite !andb_assoc.
Qed.

Lemma flush_pending_cases (tk : token) (l : token_list) :
  tokenizer.flush_pending tk l = l
  \/ exists tk', tokenizer.flush_pending tk l = l ++ [tk'].
Proof.
  unfold tokenizer.flush_pending, push_back.
  destruct (negb _); [right; eauto | now left].
Qed.

(** A Number token is appended only together with the operator or bracket
    that ends it, or at the very end. *)
Lemma parse_loop_no_adjacent_numbers (l : list ascii) :
  forall s,
    no_adjacent_numbers (tokenizer.scanned s) = true ->
    eval.is_number (last (tokenizer.scanned s) empty_token) = false ->
    no_adjacent_numbers (tokenizer.scanned (tokenizer.parse_loop l s)) = true
    /\ eval.is_number
         (last (tokenizer.scanned (tokenizer.parse_loop l s)) empty_token)
       = false.
Proof.
  induction l as [|rune l IH]; intros s Hn Hl; [auto|].
  rune_cases rune.
  - now apply IH.
  - now apply IH.
  - destruct (operator_type_cases rune Hoper) as [_ Hnum].
    assert (eval.is_number
              (mk_token (tokenizer.operator_type rune)
                 (String rune EmptyString) PrimFloat.zero) = false) as Hop.
    { unfold eval.is_number. simpl. now apply token_type_eqb_neq. }
    apply IH; simpl; unfold push_back.
    + rewrite no_adjacent_numbers_snoc, Hop, andb_false_r, andb_true_r.
      destruct (flush_pending_cases (tokenizer.pending s)
                  (tokenizer.scanned s)) as [-> | (tk' & ->)];
        [assumption|].
      now rewrite no_adjacent_numbers_snoc, Hn, Hl.
    + now rewrite last_last.
  - simpl. auto.
Qed.

Lemma parse_no_adjacent_numbers (src : string) :
  no_adjacent_numbers
    (tokenizer.tokens (tokenizer.parse (tokenizer.new src))) = true.
Proof.
  rewrite parse_tokens.
  destruct (parse_loop_no_adjacent_numbers (list_ascii_of_string src)
              (tokenizer.mk_scan empty_token [] false) eq_refl eq_refl)
    as [Hn Hl].
  fold (scan_of src) in Hn, Hl.
  destruct (flush_pending_cases (tokenizer.pending (scan_of src))
              (tokenizer.scanned (scan_of src))) as [-> | (tk' & ->)];
    [assumption|].
  now rewrite no_adjacent_numbers_snoc, Hn, Hl.
Qed.

(** X9: [parse] never leaves two Number tokens side by side, and never
    more tokens than the source has characters. *)
Theorem parse_tokens_shape (src : string) :
  no_adjacent_numbers
    (tokenizer.tokens (tokenizer.parse (tokenizer.new src))) = true
  /\ (List.length (tokenizer.tokens (tokenizer.parse (tokenizer.new src)))
      <= String.length src)%nat.
Proof.
  split; [apply parse_no_adjacent_numbers|].
  unfold tokenizer.parse. rewrite verify_tokenlist_tokens.
  apply lex_tokens_known.
Qed.

(** X10: the scanning loop raises the error flag exactly when the source
    holds a character that is neither whitespace, nor a digit or point,
    nor one of + - * / ( ). *)
Theorem lex_error_iff_rejected (src : string) :
  tokenizer.error (tokenizer.lex (tokenizer.new src)) = true
  <-> exists c, In c (list_ascii_of_string src) /\ accepted c = false.
Proof.
  rewrite lex_error, negb_true_iff. split.
  - intros H.
    induction (list_ascii_of_string src) as [|c l IH]; [discriminate|].
    simpl in H. destruct (accepted c) eqn:Hc.
    + destruct (IH H) as (c' & Hin & Hc'). exists c'. simpl. auto.
    + exists c. simpl. auto.
  - intros (c & Hin & Hc).
    destruct (forallb accepted (list_ascii_of_string src)) eqn:E;
      [|reflexivity].
    rewrite forallb_forall in E. rewrite (E c Hin) in Hc. discriminate.
Qed.

Lemma lex_error_iff_rejected_witness :
  tokenizer.error (tokenizer.lex (tokenizer.new "2 & 3")) = true.
Proof.
  apply (proj2 (lex_error_iff_rejected "2 & 3")).
  exists "&"%char. split; [simpl; auto | reflexivity].
Defined.

(** ** The close bracket in the rewrite *)

Lemma close_group_matched (ops below output : token_list) (open : token) :
  forallb eval.is_operator ops = true ->
  eval.is_open_bracket open = true ->
  eval.close_group (ops ++ open :: below) output = (output ++ ops, below).
Proof.
  intros Hops Hopen. revert output.
  induction ops as [|top ops IH]; intros output; simpl.
  - now rewrite Hopen, app_nil_r.
  - simpl in Hops. apply andb_prop in Hops. destruct Hops as [Htop Hops].
    assert (eval.is_open_bracket top = false) as Hno by (by_kind top).
    rewrite Hno, (operator_not_bracket _ Htop). simpl.
    rewrite (IH Hops). unfold push_back. now rewrite <- app_assoc.
Qed.

Lemma close_group_unmatched (op_stack output : token_list) :
  forallb eval.is_operator op_stack = true ->
  eval.close_group op_stack output = (output ++ op_stack, []).
Proof.
  revert output. induction op_stack as [|top ops IH]; intros output Hops;
    simpl.
  - now rewrite app_nil_r.
  - simpl in Hops. apply andb_prop in Hops. destruct Hops as [Htop Hops].
    assert (eval.is_open_bracket top = false) as Hno by (by_kind top).
    rewrite Hno, (operator_not_bracket _ Htop). simpl.
    rewrite (IH _ Hops). unfold push_back. now rewrite <- app_assoc.
Qed.

(** X11: on a close bracket the rewrite emits, in pop order, the operators
    above the nearest open bracket, drops that bracket and keeps what lies
    below it; when the stack holds operators only, with no open bracket to
    match, they are all emitted, the stack is left empty and no error is
    raised. *)
Theorem postfix_close_bracket
  (term : token) (input output : token_list) (err : bool) :
  eval.is_close_bracket term = true ->
  (forall (ops below : token_list) (open : token),
     forallb eval.is_operator ops = true ->
     eval.is_open_bracket open = true ->
     eval.postfix_loop (term :: input)
       (eval.mk_rewrite output (ops ++ open :: below) err)
     = eval.postfix_loop input (eval.mk_rewrite (output ++ ops) below err))
  /\ (forall ops : token_list,
        forallb eval.is_operator ops = true ->
        eval.postfix_loop (term :: input) (eval.mk_rewrite output ops err)
        = eval.postfix_loop input (eval.mk_rewrite (output ++ ops) [] err)).
Proof.
  intros Hclose.
  assert (eval.is_number term = false) as Hn by (by_kind term).
  assert (eval.is_operator term = false) as Ho by (by_kind term).
  assert (eval.is_bracket term = true) as Hb by (by_kind term).
  assert (eval.is_open_bracket term = false) as Hopen by (by_kind term).
  split.
  - intros ops below open Hops Ho'. cbn [eval.postfix_loop].
    rewrite Hn, Ho, Hb, Hopen, Hclose.
    now rewrite (close_group_matched _ _ _ _ Hops Ho').
  - intros ops Hops. cbn [eval.postfix_loop].
    rewrite Hn, Ho, Hb, Hopen, Hclose.
    now rewrite (close_group_unmatched _ _ Hops).
Qed.

(** The close bracket of 2*(3+4) and a close bracket without its open
    bracket. *)
Lemma postfix_close_bracket_witness :
  eval.postfix_loop [Sym token_type.close_bracket ")"]
    (eval.mk_rewrite [Num "2" 2; Num "3" 3; Num "4" 4]
       [Sym token_type.op_add "+"; Sym token_type.open_bracket "(";
        Sym token_type.op_mul "*"] false)
  = eval.mk_rewrite
      [Num "2" 2; Num "3" 3; Num "4" 4; Sym token_type.op_add "+"]
      [Sym token_type.op_mul "*"] false
  /\ eval.postfix_loop [Sym token_type.close_bracket ")"]
       (eval.mk_rewrite [Num "1" 1; Num "2" 2]
          [Sym token_type.op_add "+"] false)
     = eval.mk_rewrite [Num "1" 1; Num "2" 2; Sym token_type.op_add "+"]
         [] false.
Proof.
  split.
  - exact (proj1 (postfix_close_bracket (Sym token_type.close_bracket ")")
                    [] [Num "2" 2; Num "3" 3; Num "4" 4] false eq_refl)
             [Sym token_type.op_add "+"] [Sym token_type.op_mul "*"]
             (Sym token_type.open_bracket "(") eq_refl eq_refl).
  - exact (proj2 (postfix_close_bracket (Sym token_type.close_bracket ")")
                    [] [Num "1" 1; Num "2" 2] false eq_refl)
             [Sym token_type.op_add "+"] eq_refl).
Defined.

(** ** The evaluation loop on well-formed postfix *)

(** Without a token that stops it, the loop runs a sequence in two parts
    one after the other. *)
Lemma solve_loop_app (a b nums : token_list) (err : bool) :
  forallb operand_or_operator a = true ->
  eval.solve_loop (a ++ b) nums err
  = match eval.solve_loop a nums err with
    | Defined (nums', err') => eval.solve_loop b nums' err'
    | Undefined f => Undefined f
    end.
Proof.
  revert nums. induction a as [|term a IH]; intros nums Ha; [reflexivity|].
  simpl in Ha. apply andb_prop in Ha. destruct Ha as [Hterm Ha].
  unfold operand_or_operator in Hterm.
  cbn [app eval.solve_loop].
  destruct (eval.is_number term); [now apply IH|].
  destruct (eval.is_operator term); [|discriminate].
  destruct nums as [|ty [|tx nums]]; try reflexivity.
  now apply IH.
Qed.

Lemma postfix_of_tokens (e : expr) :
  well_typed e = true -> forallb operand_or_operator (postfix_of e) = true.
Proof.
  induction e as [tk | op tk l IHl r IHr]; simpl; intros H.
  - unfold operand_or_operator. now rewrite H.
  - apply andb_prop in H. destruct H as [H Hr].
    apply andb_prop in H. destruct H as [Htk Hl].
    rewrite !forallb_app, (IHl Hl), (IHr Hr). simpl.
    apply token_type_eqb_eq in Htk. unfold operand_or_operator.
    unfold eval.is_number, eval.is_operator. rewrite Htk.
    now destruct op.
Qed.

(** X12: the evaluation loop of [solve], run on the postfix form of an
    expression tree, pushes one Number token that holds the value of the
    tree, with the left subtree as left operand at every node, and leaves
    the operand stack below it and the error flag as they were. *)
Theorem solve_loop_expression (e : expr) :
  well_typed e = true ->
  forall (nums : token_list) (err : bool),
  exists t,
    eval.solve_loop (postfix_of e) nums err = Defined (t :: nums, err)
    /\ type t = token_type.number
    /\ number t = value_of e.
Proof.
  induction e as [tk | op tk l IHl r IHr]; intros H nums err.
  - exists tk. simpl in *. rewrite H.
    repeat split. now apply token_type_eqb_eq.
  - simpl in H. apply andb_prop in H. destruct H as [H Hr].
    apply andb_prop in H. destruct H as [Htk Hl].
    destruct (IHl Hl nums err) as (tl & El & _ & Vl).
    destruct (IHr Hr (tl :: nums) err) as (tr & Er & _ & Vr).
    apply token_type_eqb_eq in Htk.
    exists (eval.number_token (value_of (Node op tk l r))).
    split; [|split; reflexivity].
    cbn [postfix_of].
    rewrite (solve_loop_app _ _ _ _ (postfix_of_tokens l Hl)), El.
    rewrite (solve_loop_app _ _ _ _ (postfix_of_tokens r Hr)), Er.
    cbn [eval.solve_loop].
    unfold eval.is_number, eval.is_operator. rewrite Htk.
    destruct op; simpl; now rewrite Vl, Vr.
Qed.

(** The tree of (8 - 3) / 2. *)
Lemma solve_loop_expression_witness :
  exists t,
    eval.solve_loop
      [Num "8" 8; Num "3" 3; Sym token_type.op_sub "-"; Num "2" 2;
       Sym token_type.op_div "/"] [] false
    = Defined ([t], false)
    /\ type t = token_type.number
    /\ number t = PrimFloat.div (PrimFloat.sub 8 3) 2.
Proof.
  exact (solve_loop_expression
           (Node Div (Sym token_type.op_div "/")
              (Node Sub (Sym token_type.op_sub "-")
                 (Leaf (Num "8" 8)) (Leaf (Num "3" 3)))
              (Leaf (Num "2" 2)))
           eq_refl [] false).
Defined.

(** ** What the rewrite keeps *)

Lemma count_type_app (ty : token_type.t) (a b : token_list) :
  count_type ty (a ++ b) = (count_type ty a + count_type ty b)%nat.
Proof. unfold count_type. now rewrite filter_app, length_app. Qed.

Lemma count_type_other (ty : token_type.t) (tk : token) (l : token_list) :
  type tk <> ty -> count_type ty (tk :: l) = count_type ty l.
Proof.
  intros H. rewrite count_type_cons.
  apply token_type_eqb_neq in H. now rewrite H.
Qed.

(** The loop of the close bracket, on a stack of operators and open
    brackets: the operators it pops go to the output, at most one open
    bracket goes away, nothing else changes. *)
Lemma close_group_invariant (op_stack : token_list) :
  forall output : token_list,
    forallb operator_or_open op_stack = true ->
    forallb emitted_kind output = true ->
    let r := eval.close_group op_stack output in
    forallb emitted_kind (fst r) = true
    /\ forallb operator_or_open (snd r) = true
    /\ filter eval.is_number (fst r) = filter eval.is_number output
    /\ forall ty, ty <> token_type.open_bracket ->
                  ty <> token_type.close_bracket ->
                  count_type ty (fst r ++ snd r)
                  = count_type ty (output ++ op_stack).
Proof.
  induction op_stack as [|top rest IH]; intros output Hst Hout; cbv zeta.
  - simpl. repeat split; auto.
  - simpl in Hst. apply andb_prop in Hst. destruct Hst as [Htop Hrest].
    cbn [eval.close_group].
    destruct (eval.is_open_bracket top) eqn:Hopen.
    + assert (type top = token_type.open_bracket) as Ety
          by (now apply token_type_eqb_eq).
      cbn [fst snd]. repeat split; try assumption.
      intros ty Hty _. rewrite !count_type_app, count_type_other;
        [reflexivity | congruence].
    + unfold operator_or_open in Htop. rewrite Hopen, orb_false_r in Htop.
      rewrite (operator_not_bracket _ Htop). cbn [negb].
      assert (forallb emitted_kind (push_back output top) = true) as Hout'.
      { unfold push_back. rewrite forallb_app, Hout. simpl.
        unfold emitted_kind. now rewrite Htop, orb_true_r. }
      destruct (IH (push_back output top) Hrest Hout')
        as (H1 & H2 & H4 & H5).
      repeat split; try assumption.
      * rewrite H4. unfold push_back. rewrite filter_app. simpl.
        rewrite (operator_not_number _ Htop). now rewrite app_nil_r.
      * intros ty Hty1 Hty2. rewrite (H5 ty Hty1 Hty2).
        unfold push_back. now rewrite <- app_assoc.
Qed.

Lemma kind_facts (tk : token) :
  eval.is_number tk = token_type.eqb (type tk) token_type.number
  /\ eval.is_operator tk
     = match type tk with
       | token_type.op_add | token_type.op_sub
       | token_type.op_mul | token_type.op_div => true
       | _ => false
       end
  /\ eval.is_open_bracket tk
     = token_type.eqb (type tk) token_type.open_bracket
  /\ eval.is_close_bracket tk
     = token_type.eqb (type tk) token_type.close_bracket
  /\ eval.is_bracket tk
     = (token_type.eqb (type tk) token_type.open_bracket
        || token_type.eqb (type tk) token_type.close_bracket)%bool.
Proof.
  unfold eval.is_bracket, eval.is_open_bracket, eval.is_close_bracket,
    eval.is_operator, eval.is_number.
  destruct (type tk); repeat split.
Qed.

Lemma operator_or_open_no_number (l : token_list) :
  forallb operator_or_open l = true -> filter eval.is_number l = [].
Proof.
  induction l as [|tk l IH]; [reflexivity|]. simpl. intros H.
  apply andb_prop in H. destruct H as [Htk Hl].
  unfold operator_or_open in Htk.
  assert (eval.is_number tk = false) as Hn by (by_kind tk).
  rewrite Hn. now apply IH.
Qed.

Lemma operator_or_open_emitted (l : token_list) :
  forallb operator_or_open l = true -> forallb emitted_kind l = true.
Proof.
  induction l as [|tk l IH]; [reflexivity|]. simpl. intros H.
  apply andb_prop in H. destruct H as [Htk Hl].
  rewrite (IH Hl), andb_true_r.
  unfold operator_or_open, emitted_kind in *.
  destruct (eval.is_number tk); [reflexivity|]. exact Htk.
Qed.

(** The arithmetic of the counts of one kind, once the tokens moved are
    named. *)
Ltac count_kinds ty Ety :=
  rewrite ?count_type_app, ?count_type_cons, ?Ety;
  change (count_type ty []) with 0%nat;
  repeat match goal with
         | |- context [token_type.eqb ?a ty] =>
             let E := fresh "E" in
             destruct (token_type.eqb a ty) eqn:E;
             try (apply token_type_eqb_eq in E; congruence)
         end;
  lia.

(** The turn of the loop of [to_postfix] on an operator, in the proof of
    the invariant below: the operator is pushed, or the stack is flushed
    first. *)
Ltac operator_turn IH term input output op_stack err Hn Ho Hout Hst Ety :=
  let Hterm := fresh "Hterm" in
  assert (operator_or_open term = true) as Hterm
      by (unfold operator_or_open; now rewrite Ho);
  destruct op_stack as [|top below];
  [ | destruct (eval.is_bracket top);
      [ | destruct (eval.precedence term >? eval.precedence top);
          [ | rewrite drain_spec ] ] ];
  match goal with
  | |- context [eval.postfix_loop input (eval.mk_rewrite ?o ?s err)] =>
      let H1 := fresh "H1" in
      let H2 := fresh "H2" in
      let H3 := fresh "H3" in
      let Hk := fresh "Hk" in
      let Ha := fresh "Ha" in
      let Hf := fresh "Hf" in
      let Hcnt := fresh "Hcnt" in
      destruct (IH o s err) as (H1 & H2 & H3);
      [ rewrite ?forallb_app, ?Hout, ?(operator_or_open_emitted _ Hst);
        reflexivity
      | cbn [forallb]; apply andb_true_intro;
        split; [exact Hterm | first [exact Hst | reflexivity]]
      | split; [assumption|]; split; [assumption|];
        intros Hk; apply andb_prop in Hk; destruct Hk as [_ Hk];
        destruct (H3 Hk) as (Ha & Hf & Hcnt);
        split; [assumption|]; split;
        [ rewrite Hf, ?filter_app, ?(operator_or_open_no_number _ Hst),
            ?app_nil_r;
          cbn [filter]; rewrite Hn; reflexivity
        | let ty := fresh "ty" in
          let Hty1 := fresh "Hty" in
          let Hty2 := fresh "Hty" in
          intros ty Hty1 Hty2; rewrite (Hcnt ty Hty1 Hty2);
          count_kinds ty Ety ] ]
  end.

(** What the loop of [to_postfix] keeps, whatever it reads: the output
    holds Number, operator and open-bracket tokens, the stack operators and
    open brackets; and, on tokens of known kinds, it reads all of them,
    keeps the Number tokens in their order and loses no token but
    brackets. *)
Lemma postfix_loop_invariant (input : token_list) :
  forall (output op_stack : token_list) (err : bool),
    forallb emitted_kind output = true ->
    forallb operator_or_open op_stack = true ->
    let r := eval.postfix_loop input (eval.mk_rewrite output op_stack err) in
    forallb emitted_kind (eval.output r) = true
    /\ forallb operator_or_open (eval.op_stack r) = true
    /\ (forallb known input = true ->
        eval.aborted r = err
        /\ filter eval.is_number (eval.output r)
           = filter eval.is_number output ++ filter eval.is_number input
        /\ forall ty, ty <> token_type.open_bracket ->
                      ty <> token_type.close_bracket ->
                      count_type ty (eval.output r ++ eval.op_stack r)
                      = (count_type ty (output ++ op_stack)
                         + count_type ty input)%nat).
Proof.
  induction input as [|term input IH]; intros output op_stack err Hout Hst;
    cbv zeta.
  - cbn [eval.postfix_loop eval.output eval.op_stack eval.aborted filter].
    split; [assumption|]. split; [assumption|]. intros _.
    split; [reflexivity|]. split; [now rewrite app_nil_r|].
    intros ty _ _. change (count_type ty []) with 0%nat. lia.
  - destruct (kind_facts term) as (Hn & Ho & Hop & Hc & Hb).
    cbn [eval.postfix_loop forallb].
    destruct (type term) eqn:Ety; simpl in Hn, Ho, Hop, Hc, Hb;
      rewrite Hn, ?Ho, ?Hb, ?Hop, ?Hc.
    + (* unknown: the loop stops *)
      cbn [eval.output eval.op_stack eval.aborted].
      split; [assumption|]. split; [assumption|].
      unfold known at 1. rewrite Ety. discriminate.
    + (* Number *)
      assert (forallb emitted_kind (push_back output term) = true) as Hout'.
      { unfold push_back. rewrite forallb_app, Hout. simpl.
        unfold emitted_kind. now rewrite Hn. }
      destruct (IH (push_back output term) op_stack err Hout' Hst)
        as (H1 & H2 & H3).
      split; [assumption|]. split; [assumption|].
      intros Hk. apply andb_prop in Hk. destruct Hk as [_ Hk].
      destruct (H3 Hk) as (Ha & Hf & Hcnt).
      split; [assumption|]. split.
      * rewrite Hf. unfold push_back. rewrite filter_app. cbn [filter].
        rewrite Hn. now rewrite <- app_assoc.
      * intros ty Hty1 Hty2. rewrite (Hcnt ty Hty1 Hty2).
        unfold push_back. count_kinds ty Ety.
    + (* open bracket *)
      assert (forallb operator_or_open (term :: op_stack) = true) as Hst'.
      { simpl. unfold operator_or_open at 1. now rewrite Hop, Hst, orb_true_r. }
      destruct (IH output (term :: op_stack) err Hout Hst') as (H1 & H2 & H3).
      split; [assumption|]. split; [assumption|].
      intros Hk. apply andb_prop in Hk. destruct Hk as [_ Hk].
      destruct (H3 Hk) as (Ha & Hf & Hcnt).
      split; [assumption|]. split.
      * rewrite Hf. cbn [filter]. now rewrite Hn.
      * intros ty Hty1 Hty2. rewrite (Hcnt ty Hty1 Hty2).
        count_kinds ty Ety.
    + (* close bracket *)
      destruct (close_group_invariant op_stack output Hst Hout)
        as (G1 & G2 & G3 & G4).
      destruct (eval.close_group op_stack output) as [output' op_stack'].
      cbn [fst snd] in *.
      destruct (IH output' op_stack' err G1 G2) as (H1 & H2 & H3).
      split; [assumption|]. split; [assumption|].
      intros Hk. apply andb_prop in Hk. destruct Hk as [_ Hk].
      destruct (H3 Hk) as (Ha & Hf & Hcnt).
      split; [assumption|]. split.
      * rewrite Hf, G3. cbn [filter]. now rewrite Hn.
      * intros ty Hty1 Hty2.
        rewrite (Hcnt ty Hty1 Hty2), (G4 ty Hty1 Hty2).
        count_kinds ty Ety.
    + operator_turn IH term input output op_stack err Hn Ho Hout Hst Ety.
    + operator_turn IH term input output op_stack err Hn Ho Hout Hst Ety.
    + operator_turn IH term input output op_stack err Hn Ho Hout Hst Ety.
    + operator_turn IH term input output op_stack err Hn Ho Hout Hst Ety.
Qed.

Lemma emitted_kind_no_close (l : token_list) :
  forallb emitted_kind l = true ->
  count_type token_type.close_bracket l = 0%nat.
Proof.
  induction l as [|tk l IH]; [reflexivity|]. simpl. intros H.
  apply andb_prop in H. destruct H as [Htk Hl].
  rewrite count_type_other; [now apply IH|].
  intros E. unfold emitted_kind in Htk.
  destruct (kind_facts tk) as (Hn & Ho & Hop & _).
  rewrite Hn, Ho, Hop, E in Htk. discriminate.
Qed.

(** The fields of [to_postfix], with the invariant of its loop. *)
Lemma to_postfix_invariant (e : eval.t) :
  let r := eval.postfix_loop (eval.tokens e)
             (eval.mk_rewrite [] [] (eval.error e)) in
  eval.tokens (eval.to_postfix e) = eval.output r ++ eval.op_stack r
  /\ forallb emitted_kind (eval.tokens (eval.to_postfix e)) = true
  /\ eval.result (eval.to_postfix e) = eval.result e.
Proof.
  cbv zeta. pose proof (to_postfix_fields e) as H. cbv zeta in H.
  destruct H as [Htok _].
  destruct (postfix_loop_invariant (eval.tokens e) [] [] (eval.error e)
              eq_refl eq_refl) as (H1 & H2 & _).
  split; [assumption|]. split.
  - rewrite Htok, forallb_app, H1. now apply operator_or_open_emitted.
  - unfold eval.to_postfix. destruct (eval.drain _ _). reflexivity.
Qed.

(** X13: [to_postfix] never emits a close bracket; and on tokens of known
    kinds it reads the whole sequence and keeps the Number tokens in their
    order and as many tokens of every kind but the brackets as it was
    given. *)
Theorem to_postfix_keeps_tokens (e : eval.t) :
  count_type token_type.close_bracket (eval.tokens (eval.to_postfix e)) = 0%nat
  /\ (forallb known (eval.tokens e) = true ->
      filter eval.is_number (eval.tokens (eval.to_postfix e))
      = filter eval.is_number (eval.tokens e)
      /\ forall ty, ty <> token_type.open_bracket ->
                    ty <> token_type.close_bracket ->
                    count_type ty (eval.tokens (eval.to_postfix e))
                    = count_type ty (eval.tokens e)).
Proof.
  pose proof (to_postfix_invariant e) as H. cbv zeta in H.
  destruct H as (Htok & Hkind & _).
  split; [now apply emitted_kind_no_close|].
  intros Hknown.
  destruct (postfix_loop_invariant (eval.tokens e) [] [] (eval.error e)
              eq_refl eq_refl) as (_ & H2 & H3).
  destruct (H3 Hknown) as (_ & Hf & Hcnt).
  rewrite Htok. split.
  - rewrite filter_app, Hf, (operator_or_open_no_number _ H2).
    now rewrite app_nil_r.
  - intros ty Hty1 Hty2. now rewrite (Hcnt ty Hty1 Hty2).
Qed.

(** The tokens of (1+2)*3. *)
Lemma to_postfix_keeps_tokens_witness :
  filter eval.is_number
    (eval.tokens
       (eval.to_postfix
          (eval.new [Sym token_type.open_bracket "("; Num "1" 1;
                     Sym token_type.op_add "+"; Num "2" 2;
                     Sym token_type.close_bracket ")";
                     Sym token_type.op_mul "*"; Num "3" 3])))
  = [Num "1" 1; Num "2" 2; Num "3" 3].
Proof.
  exact (proj1 (proj2 (to_postfix_keeps_tokens
                         (eval.new [Sym token_type.open_bracket "("; Num "1" 1;
                                    Sym token_type.op_add "+"; Num "2" 2;
                                    Sym token_type.close_bracket ")";
                                    Sym token_type.op_mul "*"; Num "3" 3]))
                  eq_refl)).
Defined.

(** ** Where the errors of [solve] come from *)

(** On Number and operator tokens the evaluation loop never takes its
    last branch, so it leaves the error flag alone. *)
Lemma solve_loop_flag (tl : token_list) :
  forall (nums nums' : token_list) (err err' : bool),
    forallb operand_or_operator tl = true ->
    eval.solve_loop tl nums err = Defined (nums', err') ->
    err' = err.
Proof.
  induction tl as [|term tl IH]; intros nums nums' err err' Htl Hrun.
  - simpl in Hrun. congruence.
  - simpl in Htl. apply andb_prop in Htl. destruct Htl as [Hterm Htl].
    unfold operand_or_operator in Hterm. cbn [eval.solve_loop] in Hrun.
    destruct (eval.is_number term); [now apply (IH _ _ _ _ Htl Hrun)|].
    destruct (eval.is_operator term); [|discriminate].
    destruct nums as [|ty [|tx nums]]; try discriminate.
    now apply (IH _ _ _ _ Htl Hrun).
Qed.

Lemma emitted_without_bracket (l : token_list) :
  forallb emitted_kind l = true ->
  eval.check_infix_for_brackets l = false ->
  forallb operand_or_operator l = true.
Proof.
  induction l as [|tk l IH]; [reflexivity|]. simpl. intros H Hc.
  apply andb_prop in H. destruct H as [Htk Hl].
  destruct (eval.is_bracket tk) eqn:Hb; [discriminate|].
  rewrite (IH Hl Hc), andb_true_r.
  unfold emitted_kind in Htk. unfold operand_or_operator.
  destruct (kind_facts tk) as (Hn & Ho & Hop & _ & Hb').
  rewrite Hb' in Hb. apply orb_false_elim in Hb. destruct Hb as [Hb _].
  rewrite Hop, Hb, orb_false_r in Htk. exact Htk.
Qed.

(** X14: the branch of the evaluation loop of [solve] that sets the error
    flag is never taken: when [solve] returns, the tokens and the flag are
    those [to_postfix] left, and a run that ends with the flag set has not
    touched the result. *)
Theorem solve_error_from_rewrite (e e' : eval.t) :
  eval.solve e = Defined e' ->
  eval.tokens e' = eval.tokens (eval.to_postfix e)
  /\ eval.error e' = eval.error (eval.to_postfix e)
  /\ (eval.error e' = true -> eval.result e' = eval.result e).
Proof.
  pose proof (to_postfix_fields e) as Hf. cbv zeta in Hf.
  destruct Hf as [_ Herr].
  pose proof (to_postfix_invariant e) as H. cbv zeta in H.
  destruct H as (Htok & Hkind & Hres).
  unfold eval.solve.
  destruct (eval.error (eval.to_postfix e)) eqn:Eerr.
  - intros Hrun. injection Hrun as <-. auto.
  - symmetry in Herr. apply orb_false_elim in Herr. destruct Herr as [Hc _].
    rewrite <- Htok in Hc.
    pose proof (emitted_without_bracket _ Hkind Hc) as Hops.
    destruct (eval.solve_loop _ _ _) as [[nums err]|f] eqn:Erun;
      [|discriminate].
    rewrite (solve_loop_flag _ _ _ _ _ Hops Erun).
    destruct nums as [|top nums]; [discriminate|].
    intros Hrun. injection Hrun as <-. simpl.
    repeat split. discriminate.
Qed.

(** The run on an unmatched open bracket ends with the flag set and the
    result as it was. *)
Lemma solve_error_from_rewrite_witness :
  eval.result
    (eval.mk [Num "2" 2; Sym token_type.open_bracket "("] true 0)
  = eval.result (eval.new [Sym token_type.open_bracket "("; Num "2" 2]).
Proof.
  apply (solve_error_from_rewrite
           (eval.new [Sym token_type.open_bracket "("; Num "2" 2])
           (eval.mk [Num "2" 2; Sym token_type.open_bracket "("] true 0));
    reflexivity.
Defined.

(** ** Bracketed groups and the flush of the whole stack *)

Lemma close_group_output (op_stack : token_list) :
  forall output, exists more,
    fst (eval.close_group op_stack output) = output ++ more.
Proof.
  induction op_stack as [|top rest IH]; intros output; simpl.
  - exists []. now rewrite app_nil_r.
  - destruct (eval.is_open_bracket top).
    + exists []. now rewrite app_nil_r.
    + destruct (negb (eval.is_bracket top)); [|apply IH].
      destruct (IH (push_back output top)) as (more & ->).
      exists (top :: more). unfold push_back. now rewrite <- app_assoc.
Qed.

Lemma postfix_loop_output_step
  (input a b st : token_list) (err : bool) :
  (forall r, exists more,
      eval.output (eval.postfix_loop input r) = eval.output r ++ more) ->
  exists more,
    eval.output (eval.postfix_loop input (eval.mk_rewrite (a ++ b) st err))
    = a ++ more.
Proof.
  intros IH.
  destruct (IH (eval.mk_rewrite (a ++ b) st err)) as (more & ->).
  exists (b ++ more). simpl. now rewrite app_assoc.
Qed.

(** The output only grows. *)
Lemma postfix_loop_output (input : token_list) :
  forall r, exists more,
    eval.output (eval.postfix_loop input r) = eval.output r ++ more.
Proof.
  induction input as [|term input IH]; intros [output op_stack err].
  - exists []. simpl. now rewrite app_nil_r.
  - cbn [eval.postfix_loop eval.output].
    destruct (eval.is_number term); [now apply postfix_loop_output_step|].
    destruct (eval.is_operator term).
    + destruct op_stack as [|top below]; [apply IH|].
      destruct (eval.is_bracket top); [apply IH|].
      destruct (eval.precedence term >? eval.precedence top); [apply IH|].
      rewrite drain_spec. now apply postfix_loop_output_step.
    + destruct (eval.is_bracket term);
        [|exists []; simpl; now rewrite app_nil_r].
      destruct (eval.is_open_bracket term); [apply IH|].
      destruct (eval.is_close_bracket term);
        [|exists []; simpl; now rewrite app_nil_r].
      destruct (close_group_output op_stack output) as (more & Hmore).
      destruct (eval.close_group op_stack output) as [output' op_stack'].
      simpl in Hmore. subst output'. now apply postfix_loop_output_step.
Qed.

(** The loop on a sequence in two parts: the second part is read from the
    state the first part leaves, unless the loop has stopped. *)
Lemma postfix_loop_app (a b : token_list) :
  forall r,
    eval.postfix_loop (a ++ b) r
    = eval.postfix_loop b (eval.postfix_loop a r)
    \/ eval.aborted (eval.postfix_loop (a ++ b) r) = true.
Proof.
  induction a as [|term a IH]; intros [output op_stack err]; [now left|].
  cbn [app eval.postfix_loop].
  destruct (eval.is_number term); [apply IH|].
  destruct (eval.is_operator term).
  - destruct op_stack as [|top below]; [apply IH|].
    destruct (eval.is_bracket top); [apply IH|].
    destruct (eval.precedence term >? eval.precedence top); [apply IH|].
    destruct (eval.drain _ _). apply IH.
  - destruct (eval.is_bracket term); [|now right].
    destruct (eval.is_open_bracket term); [apply IH|].
    destruct (eval.is_close_bracket term); [|now right].
    destruct (eval.close_group _ _). apply IH.
Qed.

(** X15: inside a bracket, a second operator whose precedence is not
    higher than the first flushes the open bracket to the output, and
    [to_postfix] ends with the error flag set whatever stands before and
    after: so do (1+2+3) and (2*3+4). *)
Theorem to_postfix_bracket_flush
  (pre post : token_list) (open n1 o1 n2 o2 : token) :
  eval.is_open_bracket open = true ->
  eval.is_number n1 = true ->
  eval.is_operator o1 = true ->
  eval.is_number n2 = true ->
  eval.is_operator o2 = true ->
  eval.precedence o2 <= eval.precedence o1 ->
  let e := eval.new (pre ++ open :: n1 :: o1 :: n2 :: o2 :: post) in
  eval.error (eval.to_postfix e) = true
  /\ eval.solve e = Defined (eval.to_postfix e).
Proof.
  intros Hopen Hn1 Ho1 Hn2 Ho2 Hprec e.
  assert (eval.error (eval.to_postfix e) = true) as Herr.
  { pose proof (to_postfix_fields e) as Hf. cbv zeta in Hf.
    destruct Hf as [_ ->]. apply orb_true_iff.
    subst e. cbn [eval.tokens eval.error eval.new].
    destruct (postfix_loop_app pre (open :: n1 :: o1 :: n2 :: o2 :: post)
                (eval.mk_rewrite [] [] false)) as [-> | Hab];
      [left | now right].
    destruct (eval.postfix_loop pre _) as [output op_stack err].
    assert (eval.is_number open = false) as Hx1 by (by_kind open).
    assert (eval.is_operator open = false) as Hx2 by (by_kind open).
    assert (eval.is_bracket open = true) as Hx3 by (by_kind open).
    assert ((eval.precedence o2 >? eval.precedence o1) = false) as Hgt
        by (rewrite Z.gtb_ltb; apply Z.ltb_ge; exact Hprec).
    cbn [eval.postfix_loop].
    rewrite Hx1, Hx2, Hx3, Hopen. cbv iota.
    rewrite Hn1. cbv iota.
    rewrite (operator_not_number _ Ho1), Ho1. cbv iota.
    rewrite Hn2. cbv iota.
    rewrite (operator_not_number _ Ho2), Ho2, (operator_not_bracket _ Ho1),
      Hgt. cbv iota.
    rewrite drain_spec.
    match goal with |- context [eval.postfix_loop post ?r] =>
      destruct (postfix_loop_output post r) as (more & Hmore) end.
    rewrite Hmore. cbn [eval.output].
    rewrite check_infix_for_brackets_existsb, !existsb_app.
    cbn [existsb]. rewrite Hx3. now rewrite !orb_true_r. }
  split; [assumption|].
  unfold eval.solve. now rewrite Herr.
Qed.

(** (1+2+3) is answered with the evaluation error. *)
Lemma to_postfix_bracket_flush_witness :
  eval.error
    (eval.to_postfix
       (eval.new [Sym token_type.open_bracket "("; Num "1" 1;
                  Sym token_type.op_add "+"; Num "2" 2;
                  Sym token_type.op_add "+"; Num "3" 3;
                  Sym token_type.close_bracket ")"])) = true.
Proof.
  refine (proj1 (to_postfix_bracket_flush []
                   [Num "3" 3; Sym token_type.close_bracket ")"]
                   (Sym token_type.open_bracket "(") (Num "1" 1)
                   (Sym token_type.op_add "+") (Num "2" 2)
                   (Sym token_type.op_add "+")
                   eq_refl eq_refl eq_refl eq_refl eq_refl _)).
  vm_compute. discriminate.
Defined.

(** ** Bracket-free expressions *)

(** Operators alone, on a stack that holds more values than there are
    operators, are all applied. *)
Lemma solve_loop_operators (ops : token_list) :
  forall (nums : token_list) (err : bool),
    forallb eval.is_operator ops = true ->
    (List.length ops < List.length nums)%nat ->
    exists nums',
      eval.solve_loop ops nums err = Defined (nums', err)
      /\ List.length nums' = (List.length nums - List.length ops)%nat.
Proof.
  induction ops as [|term ops IH]; intros nums err Hops Hlen.
  - exists nums. simpl. split; [reflexivity | lia].
  - simpl in Hops. apply andb_prop in Hops. destruct Hops as [Hterm Hops].
    destruct nums as [|ty [|tx nums]]; simpl in Hlen; try lia.
    cbn [eval.solve_loop].
    rewrite (operator_not_number _ Hterm), Hterm.
    unfold eval.is_operator in Hterm.
    destruct (type term); simpl in Hterm; try discriminate Hterm;
      match goal with |- context [eval.solve_loop ops ?n err] =>
        destruct (IH n err Hops) as (nums' & Hrun & Hl);
        [ simpl; lia
        | exists nums'; split; [exact Hrun | rewrite Hl; simpl; lia] ]
      end.
Qed.

Lemma operators_are_tokens (l : token_list) :
  forallb eval.is_operator l = true -> forallb operand_or_operator l = true.
Proof.
  induction l as [|tk l IH]; [reflexivity|]. simpl. intros H.
  apply andb_prop in H. destruct H as [Htk Hl].
  unfold operand_or_operator at 1. now rewrite Htk, orb_true_r, (IH Hl).
Qed.

Lemma no_bracket_among_tokens (l : token_list) :
  forallb operand_or_operator l = true ->
  eval.check_infix_for_brackets l = false.
Proof.
  induction l as [|tk l IH]; [reflexivity|]. simpl. intros H.
  apply andb_prop in H. destruct H as [Htk Hl].
  unfold operand_or_operator in Htk.
  assert (eval.is_bracket tk = false) as Hb by (by_kind tk).
  rewrite Hb. now apply IH.
Qed.

Lemma balanced_number (output op_stack nums : token_list) (n : token) :
  eval.is_number n = true ->
  forallb eval.is_operator op_stack = true ->
  forallb operand_or_operator output = true ->
  eval.solve_loop output [] false = Defined (nums, false) ->
  List.length nums = List.length op_stack ->
  balanced (eval.mk_rewrite (push_back output n) op_stack false).
Proof.
  intros Hn Hst Hout Hrun Hlen. unfold balanced, push_back. simpl.
  repeat split; try assumption.
  - rewrite forallb_app, Hout. simpl. unfold operand_or_operator.
    now rewrite Hn.
  - exists (n :: nums). rewrite (solve_loop_app _ _ _ _ Hout), Hrun.
    simpl. rewrite Hn. split; [reflexivity | now rewrite Hlen].
Qed.

Lemma postfix_loop_balanced (n : nat) :
  forall (rest : token_list) (r : eval.rewrite),
    (List.length rest <= n)%nat ->
    operator_number_pairs rest = true ->
    balanced r ->
    balanced (eval.postfix_loop rest r).
Proof.
  induction n as [|n IH]; intros rest r Hlen Hpairs Hr.
  - destruct rest; [exact Hr | simpl in Hlen; lia].
  - destruct rest as [|o [|n1 rest]]; [exact Hr | discriminate |].
    cbn [operator_number_pairs] in Hpairs.
    apply andb_prop in Hpairs. destruct Hpairs as [Hpairs Hrest].
    apply andb_prop in Hpairs. destruct Hpairs as [Ho Hn1].
    destruct r as [output op_stack err].
    destruct Hr as (Herr & Hst & Hout & nums & Hrun & Hnums).
    simpl in Herr, Hst, Hout, Hrun, Hnums. subst err.
    assert (forall st nums',
               forallb eval.is_operator st = true ->
               forall out, forallb operand_or_operator out = true ->
               eval.solve_loop out [] false = Defined (nums', false) ->
               List.length nums' = List.length st ->
               balanced
                 (eval.postfix_loop rest
                    (eval.mk_rewrite (push_back out n1) st false)))
      as Hnext.
    { intros st nums' Hst' out Hout' Hrun' Hlen'.
      apply IH; [simpl in Hlen; lia | assumption |].
      now apply (balanced_number out st nums'). }
    cbn [eval.postfix_loop].
    rewrite (operator_not_number _ Ho), Ho, Hn1. cbv iota.
    assert (forall st, forallb eval.is_operator st = true ->
                       forallb eval.is_operator (o :: st) = true) as Hpush
        by (intros st Hst'; simpl; now rewrite Ho).
    destruct op_stack as [|top below].
    + apply (Hnext [o] nums (Hpush [] eq_refl) output Hout Hrun Hnums).
    + assert (eval.is_bracket top = false) as Hb.
      { simpl in Hst. apply andb_prop in Hst.
        now apply operator_not_bracket. }
      rewrite Hb.
      destruct (eval.precedence o >? eval.precedence top).
      * apply (Hnext (o :: top :: below) nums (Hpush _ Hst) output Hout Hrun
                 Hnums).
      * rewrite drain_spec. cbn [eval.output eval.op_stack].
        destruct (solve_loop_operators (top :: below) nums false Hst)
          as (nums' & Hrun' & Hlen'); [lia|].
        apply (Hnext [o] nums' (Hpush [] eq_refl) (output ++ top :: below)).
        -- rewrite forallb_app, Hout. now apply operators_are_tokens.
        -- now rewrite (solve_loop_app _ _ _ _ Hout), Hrun.
        -- rewrite Hlen', Hnums. cbn [List.length]. lia.
Qed.

(** An alternating sequence is evaluated to the end. *)
Lemma solve_of_alternating (tl : token_list) :
  alternating tl = true ->
  exists e', eval.solve (eval.new tl) = Defined e'
             /\ eval.error e' = false
             /\ eval.tokens e' = eval.tokens (eval.to_postfix (eval.new tl)).
Proof.
  intros Halt. destruct tl as [|n0 rest]; [discriminate|].
  simpl in Halt. apply andb_prop in Halt. destruct Halt as [Hn0 Hrest].
  pose proof (to_postfix_fields (eval.new (n0 :: rest))) as Hf.
  cbv zeta in Hf. destruct Hf as [Htok Herr].
  cbn [eval.new eval.tokens eval.error eval.postfix_loop] in Htok, Herr.
  rewrite Hn0 in Htok, Herr.
  assert (balanced (eval.mk_rewrite (push_back [] n0) [] false)) as H0
      by (now apply (balanced_number [] [] [] n0)).
  pose proof (postfix_loop_balanced _ rest _ (Nat.le_refl _) Hrest H0)
    as (Hab & Hst & Hout & nums & Hrun & Hlen).
  set (r := eval.postfix_loop rest
              (eval.mk_rewrite (push_back [] n0) [] false)) in *.
  assert (forallb operand_or_operator (eval.output r ++ eval.op_stack r)
          = true) as Hall
      by (now rewrite forallb_app, Hout, operators_are_tokens).
  rewrite (no_bracket_among_tokens _ Hall), Hab in Herr. simpl in Herr.
  destruct (solve_loop_operators (eval.op_stack r) nums false Hst)
    as (nums' & Hrun' & Hlen'); [lia|].
  assert (eval.solve_loop (eval.tokens (eval.to_postfix (eval.new (n0 :: rest))))
            [] false = Defined (nums', false)) as Hsolve
      by (now rewrite Htok, (solve_loop_app _ _ _ _ Hout), Hrun).
  destruct nums' as [|top [|x nums']]; simpl in Hlen'; try lia.
  exists (eval.mk (eval.tokens (eval.to_postfix (eval.new (n0 :: rest))))
            false (number top)).
  split; [|split; reflexivity].
  unfold eval.solve. now rewrite Herr, Hsolve.
Qed.

(** X16: on a bracket-free infix sequence, Number, operator, Number, ...,
    Number, [solve] never pops an empty stack and ends with the error flag
    unset: every such sequence gets a result. *)
Theorem solve_alternating (tl : token_list) :
  alternating tl = true ->
  exists e', eval.solve (eval.new tl) = Defined e'
             /\ eval.error e' = false
             /\ eval.tokens e' = eval.tokens (eval.to_postfix (eval.new tl)).
Proof. exact (solve_of_alternating tl). Qed.

(** 8 - 2 * 3 + 1. *)
Lemma solve_alternating_witness :
  exists e',
    eval.solve
      (eval.new [Num "8" 8; Sym token_type.op_sub "-"; Num "2" 2;
                 Sym token_type.op_mul "*"; Num "3" 3;
                 Sym token_type.op_add "+"; Num "1" 1]) = Defined e'
    /\ eval.error e' = false
    /\ eval.tokens e'
       = eval.tokens
           (eval.to_postfix
              (eval.new [Num "8" 8; Sym token_type.op_sub "-"; Num "2" 2;
                         Sym token_type.op_mul "*"; Num "3" 3;
                         Sym token_type.op_add "+"; Num "1" 1])).
Proof.
  exact (solve_alternating
           [Num "8" 8; Sym token_type.op_sub "-"; Num "2" 2;
            Sym token_type.op_mul "*"; Num "3" 3;
            Sym token_type.op_add "+"; Num "1" 1] eq_refl).
Defined.

(** ** Bracket-free lines *)

Lemma count_operators_cons (tk : token) (l : token_list) :
  count_operators (tk :: l)
  = ((if eval.is_operator tk then 1 else 0) + count_operators l)%nat.
Proof.
  unfold count_operators. rewrite !count_type_cons.
  unfold eval.is_operator. destruct (type tk); simpl; lia.
Qed.

Lemma count_number_cons (tk : token) (l : token_list) :
  count_type token_type.number (tk :: l)
  = ((if eval.is_number tk then 1 else 0)
     + count_type token_type.number l)%nat.
Proof. now rewrite count_type_cons. Qed.

(** Numbers and operators, no two Numbers side by side: there is at most
    one Number more than there are operators, and when there is one more
    the sequence alternates. *)
Lemma alternating_of_counts (l : token_list) :
  forallb operand_or_operator l = true ->
  no_adjacent_numbers l = true ->
  (count_type token_type.number l <= count_operators l + 1)%nat
  /\ (eval.is_number (hd empty_token l) = false ->
      (count_type token_type.number l <= count_operators l)%nat)
  /\ (count_type token_type.number l = (count_operators l + 1)%nat ->
      alternating l = true)
  /\ (eval.is_number (hd empty_token l) = false ->
      count_type token_type.number l = count_operators l ->
      operator_number_pairs l = true).
Proof.
  induction l as [|a l IH]; intros Hall Hadj.
  - unfold count_operators, count_type. simpl.
    repeat split; intros; try reflexivity; lia.
  - simpl in Hall. apply andb_prop in Hall. destruct Hall as [Ha Hall].
    cbn [no_adjacent_numbers] in Hadj.
    apply andb_prop in Hadj. destruct Hadj as [Hab Hadj].
    destruct (IH Hall Hadj) as (I1 & I2 & I3 & I4).
    rewrite count_number_cons, count_operators_cons.
    unfold operand_or_operator in Ha. cbn [hd].
    destruct (eval.is_number a) eqn:Hn.
    + assert (eval.is_operator a = false) as Ho by (by_kind a).
      assert (eval.is_number (hd empty_token l) = false) as Hhd.
      { destruct l as [|b l]; [reflexivity|]. simpl in *.
        now destruct (eval.is_number b). }
      rewrite Ho. specialize (I2 Hhd).
      split; [lia|]. split; [discriminate|]. split; [|discriminate].
      intros Hc. cbn [alternating]. rewrite Hn. apply (I4 Hhd). lia.
    + simpl in Ha. rewrite Ha.
      split; [lia|]. split; [intros _; lia|]. split; [intros Hc; lia|].
      intros _ Hc.
      assert (alternating l = true) as Halt by (apply I3; lia).
      destruct l as [|n l]; [discriminate|].
      cbn [alternating] in Halt. cbn [operator_number_pairs].
      now rewrite Ha.
Qed.

(** What [verify_tokenlist] has checked when [parse] ends without error. *)
Lemma parse_accepted (src : string) :
  Z.of_nat (String.length src) < 2 ^ 31 ->
  tokenizer.error (tokenizer.parse (tokenizer.new src)) = false ->
  let tl := tokenizer.tokens (tokenizer.parse (tokenizer.new src)) in
  forallb known tl = true
  /\ count_type token_type.open_bracket tl
     = count_type token_type.close_bracket tl
  /\ count_type token_type.number tl = (count_operators tl + 1)%nat.
Proof.
  intros Hlen Herr tl. subst tl.
  unfold tokenizer.parse in *. rewrite verify_tokenlist_tokens.
  destruct (lex_tokens_known src) as [Hknown Hle].
  split; [assumption|].
  unfold tokenizer.verify_tokenlist in Herr.
  destruct (tokenizer.error (tokenizer.lex (tokenizer.new src))) eqn:Hlex;
    [rewrite Hlex in Herr; discriminate|].
  set (tl := tokenizer.tokens (tokenizer.lex (tokenizer.new src))) in *.
  pose proof (fold_count_token tl 0 0 0 0 false) as Hfold.
  change (Z.of_nat 0) with 0 in Hfold.
  rewrite Hfold in Herr by (simpl; lia). clear Hfold.
  cbn [tokenizer.error tokenizer.bad_type tokenizer.numbers_count
       tokenizer.operations_count tokenizer.open_brackets_count
       tokenizer.close_brackets_count Nat.add] in Herr.
  pose proof (count_operators_le tl) as Hsum.
  destruct (Z.eqb_spec (Z.of_nat (count_type token_type.number tl))
              (wrap_int (Z.of_nat (count_operators tl) + 1))) as [En | En];
    [|discriminate].
  destruct (Z.eqb_spec (Z.of_nat (count_type token_type.open_bracket tl))
              (Z.of_nat (count_type token_type.close_bracket tl)))
    as [Eb | Eb]; [|discriminate].
  split; [lia|].
  destruct (Z.eq_dec (Z.of_nat (count_operators tl) + 1) (2 ^ 31))
    as [Hmax | Hmax].
  - rewrite Hmax in En. change (wrap_int (2 ^ 31)) with (- 2 ^ 31) in En. lia.
  - rewrite wrap_int_small in En by lia. lia.
Qed.

(** X17: a line shorter than [2^31] characters that [parse] accepts and
    that has no bracket is evaluated without fault and without error:
    [main] answers it with a result. *)
Theorem main_step_bracket_free (line : string) :
  Z.of_nat (String.length line) < 2 ^ 31 ->
  tokenizer.error (tokenizer.parse (tokenizer.new line)) = false ->
  eval.check_infix_for_brackets
    (tokenizer.tokens (tokenizer.parse (tokenizer.new line))) = false ->
  alternating (tokenizer.tokens (tokenizer.parse (tokenizer.new line))) = true
  /\ exists e',
       eval.solve
         (eval.of_tokenizer (tokenizer.parse (tokenizer.new line)))
       = Defined e'
       /\ eval.error e' = false
       /\ main_step line = Some (Defined (answer (eval.result e'))).
Proof.
  intros Hlen Herr Hbr.
  pose proof (parse_accepted line Hlen Herr) as H. cbv zeta in H.
  destruct H as (Hknown & _ & Hcount).
  pose proof (parse_no_adjacent_numbers line) as Hadj.
  set (tl := tokenizer.tokens (tokenizer.parse (tokenizer.new line))) in *.
  assert (forallb operand_or_operator tl = true) as Hall.
  { clear - Hknown Hbr. induction tl as [|tk tl IH]; [reflexivity|].
    simpl in *. apply andb_prop in Hknown. destruct Hknown as [Hk Hknown].
    destruct (eval.is_bracket tk) eqn:Hb; [discriminate|].
    rewrite (IH Hbr Hknown), andb_true_r.
    unfold operand_or_operator, known in *.
    destruct (kind_facts tk) as (Hn & Ho & _ & _ & Hb').
    rewrite Hn, Ho. rewrite Hb' in Hb.
    destruct (type tk); simpl in *; congruence. }
  destruct (alternating_of_counts tl Hall Hadj) as (_ & _ & Halt & _).
  specialize (Halt Hcount).
  split; [assumption|].
  destruct (solve_of_alternating tl Halt) as (e' & Hsolve & He' & _).
  exists e'. split; [exact Hsolve|]. split; [assumption|].
  destruct (parse_of_string_strip line) as [Htok Hflag].
  unfold main_step.
  destruct (String.eqb_spec (string_strip line) EmptyString) as [E | E].
  - rewrite E in Hflag. rewrite Herr in Hflag. discriminate.
  - cbn [negb]. unfold tokenizer.error_state. rewrite Hflag, Herr.
    unfold eval.of_tokenizer, tokenizer.get_tokens. rewrite Htok.
    fold tl. change (eval.mk tl false PrimFloat.zero) with (eval.new tl).
    rewrite Hsolve. unfold eval.error_state, eval.get_result.
    now rewrite He'.
Qed.

(** The line 8 - 2*3 + 1. *)
Lemma main_step_bracket_free_witness :
  alternating
    (tokenizer.tokens (tokenizer.parse (tokenizer.new " 8 - 2*3 + 1 ")))
  = true
  /\ exists e',
       eval.solve
         (eval.of_tokenizer
            (tokenizer.parse (tokenizer.new " 8 - 2*3 + 1 ")))
       = Defined e'
       /\ eval.error e' = false
       /\ main_step " 8 - 2*3 + 1 "
          = Some (Defined (answer (eval.result e'))).
Proof.
  apply (main_step_bracket_free " 8 - 2*3 + 1 "); vm_compute; reflexivity.
Defined.

(** ** The operand stack below and above *)

(** X18: the evaluation loop works on the top of the operand stack only:
    a run that is defined stays the same run, with the same outcome, when
    more values lie below. *)
Theorem solve_loop_frame (tl : token_list) :
  forall (nums nums' base : token_list) (err err' : bool),
    eval.solve_loop tl nums err = Defined (nums', err') ->
    eval.solve_loop tl (nums ++ base) err = Defined (nums' ++ base, err').
Proof.
  induction tl as [|term tl IH]; intros nums nums' base err err' Hrun.
  - simpl in *. injection Hrun as <- <-. reflexivity.
  - cbn [eval.solve_loop] in *.
    destruct (eval.is_number term).
    + apply (IH (term :: nums)). exact Hrun.
    + destruct (eval.is_operator term);
        [|injection Hrun as <- <-; reflexivity].
      destruct nums as [|ty [|tx nums]]; try discriminate.
      cbn [app].
      destruct (type term); apply (IH _ _ base _ _ Hrun).
Qed.

Lemma solve_loop_frame_witness :
  eval.solve_loop [Sym token_type.op_mul "*"]
    ([Num "3" 3; Num "2" 2] ++ [Num "7" 7]) false
  = Defined ([eval.number_token 6] ++ [Num "7" 7], false).
Proof.
  apply (solve_loop_frame [Sym token_type.op_mul "*"]
           [Num "3" 3; Num "2" 2] [eval.number_token 6] [Num "7" 7]
           false false).
  reflexivity.
Defined.

Lemma postfix_loop_numbers (l : token_list) :
  forall (output : token_list) (err : bool),
    forallb eval.is_number l = true ->
    eval.postfix_loop l (eval.mk_rewrite output [] err)
    = eval.mk_rewrite (output ++ l) [] err.
Proof.
  induction l as [|n l IH]; intros output err Hl; simpl.
  - now rewrite app_nil_r.
  - simpl in Hl. apply andb_prop in Hl. destruct Hl as [Hn Hl].
    rewrite Hn, (IH _ _ Hl). unfold push_back. now rewrite <- app_assoc.
Qed.

Lemma solve_loop_numbers (l : token_list) :
  forall (nums : token_list) (err : bool),
    forallb eval.is_number l = true ->
    eval.solve_loop l nums err = Defined (rev l ++ nums, err).
Proof.
  induction l as [|n l IH]; intros nums err Hl; [reflexivity|].
  simpl in Hl. apply andb_prop in Hl. destruct Hl as [Hn Hl].
  cbn [eval.solve_loop]. rewrite Hn, (IH _ _ Hl). simpl.
  now rewrite <- app_assoc.
Qed.

Lemma numbers_without_bracket (l : token_list) :
  forallb eval.is_number l = true -> eval.check_infix_for_brackets l = false.
Proof.
  induction l as [|n l IH]; [reflexivity|]. simpl. intros H.
  apply andb_prop in H. destruct H as [Hn Hl].
  assert (eval.is_bracket n = false) as Hb by (by_kind n).
  rewrite Hb. now apply IH.
Qed.

(** X19: [solve] reads the top of the operand stack without checking that
    one value is left: given Number tokens only, however many, it ends
    without error and its result is the last of them. *)
Theorem solve_surplus_operands (l : token_list) (n : token) :
  forallb eval.is_number (l ++ [n]) = true ->
  eval.solve (eval.new (l ++ [n]))
  = Defined (eval.mk (l ++ [n]) false (number n)).
Proof.
  intros Hl. unfold eval.solve, eval.to_postfix.
  cbn [eval.new eval.tokens eval.error eval.result].
  rewrite (postfix_loop_numbers _ [] false Hl).
  cbn [eval.op_stack eval.output eval.aborted eval.drain app].
  rewrite (numbers_without_bracket _ Hl).
  cbn [eval.error eval.tokens].
  rewrite (solve_loop_numbers _ [] false Hl), rev_app_distr.
  reflexivity.
Qed.

Lemma solve_surplus_operands_witness :
  eval.solve (eval.new ([Num "1" 1; Num "2" 2] ++ [Num "3" 3]))
  = Defined (eval.mk ([Num "1" 1; Num "2" 2] ++ [Num "3" 3]) false 3).
Proof.
  apply (solve_surplus_operands [Num "1" 1; Num "2" 2] (Num "3" 3)).
  reflexivity.
Defined.
